(** * PackMap3D: the tiled atlas packer

    A shallow embedding of [PackMap3D.py] (tile partitioner, atlas writer and
    the LOD validation of [main]) together with the properties of the
    container layout it produces.

    Python integers are [Z]; byte strings are [list byte]; the output file
    is an explicit buffer with a cursor, threaded through a small state and
    exception monad; the float quotient behind the tile counts is the
    correctly rounded binary64 value, kept as an exact dyadic number; Pillow
    is an interface ([PIL]) whose operations the packer calls without
    looking inside. *)

From Stdlib Require Import String Ascii.
From Stdlib Require Import Strings.Byte.
From Stdlib Require Import ZArith List Lia Bool.
Import ListNotations.
Open Scope Z_scope.

(** ** Python built-ins used by the packer *)

(** [range(n)]: empty when [n <= 0]. *)
Definition py_range (n : Z) : list Z := map Z.of_nat (seq 0 (Z.to_nat n)).

(** The exact ceiling of [a / b] for a non-zero divisor,
    [ceil x = - floor (- x)].  The specification words tile counts with it;
    the source reaches them through a float quotient, [ceil_truediv]
    below. *)
Definition py_ceil_div (a b : Z) : Z := - ((- a) / b).

(** Exceptions the packer can raise, one constructor per raise site or
    library failure.  The [ValueError]s keep the data their message is
    formatted from. *)
Inductive exn : Type :=
| ValueError_layer_count (expected got : Z)
| ValueError_layer_size (w h : Z) (path : string) (w' h' : Z)
| ValueError_lods (msg : string)
| ValueError_int_literal (token : string)
| ValueError_int_max_str_digits
| OpenError (path : string)
| ResizeError
| StructError
| ZeroDivisionError
| OverflowError
| IndexError
| AssertionError
| SeekError.

Definition result (A : Type) : Type := (exn + A)%type.

(** ** Float division of two integers

    [a / b] on Python integers is the binary64 value nearest to the exact
    quotient (one rounding, ties to even), zero when the quotient is too
    small, [OverflowError] when it is too large.  A finite binary64 value
    is written [(m, e)], standing for [m * 2^e]. *)

Definition float64 : Type := (Z * Z)%type.

(** [n / d] rounded to the nearest integer, ties to the even one
    ([0 <= n], [0 < d]). *)
Definition round_half_even (n d : Z) : Z :=
  let q := n / d in
  let r := n mod d in
  if 2 * r <? d then q
  else if d <? 2 * r then q + 1
  else if Z.even q then q else q + 1.

(** [floor (log2 (a / b))] for positive [a] and [b]. *)
Definition quotient_log2 (a b : Z) : Z :=
  let d := Z.log2 a - Z.log2 b in
  if b * 2 ^ Z.max 0 d <=? a * 2 ^ Z.max 0 (- d) then d else d - 1.

(** The binary64 value nearest to [a / b] for [0 <= a] and [0 < b]: 53
    significant bits, exponent of the last bit no lower than -1074; [None]
    when the rounded value reaches [2^1024], which takes an exponent that
    is not negative. *)
Definition nearest_float (a b : Z) : option float64 :=
  if a =? 0 then Some (0, 0)
  else
    let e := Z.max (quotient_log2 a b - 52) (- 1074) in
    let m := round_half_even (a * 2 ^ Z.max 0 (- e)) (b * 2 ^ Z.max 0 e) in
    if (0 <=? e) && (2 ^ 1024 <=? m * 2 ^ e) then None else Some (m, e).

(** [a / b] *)
Definition py_truediv (a b : Z) : result float64 :=
  if b =? 0 then inl ZeroDivisionError
  else match nearest_float (Z.abs a) (Z.abs b) with
       | None => inl OverflowError
       | Some (m, e) => inr (if xorb (a <? 0) (b <? 0) then (- m, e) else (m, e))
       end.

(** [math.ceil(x)] *)
Definition math_ceil (x : float64) : Z :=
  let '(m, e) := x in py_ceil_div (m * 2 ^ Z.max 0 e) (2 ^ Z.max 0 (- e)).

(** [ceil(a / b)] *)
Definition ceil_truediv (a b : Z) : result Z :=
  match py_truediv a b with
  | inl e => inl e
  | inr q => inr (math_ceil q)
  end.

(** ** The Pillow interface *)

Definition box : Type := (Z * Z * Z * Z)%type.

Class PIL : Type := {
  Image : Type;
  width : Image -> Z;
  height : Image -> Z;
  mode : Image -> string;
  (** [Image.open(path)], decoding included *)
  Image_open : string -> result Image;
  (** [img.convert(mode)] *)
  convert : Image -> string -> Image;
  (** [img.crop((x0, y0, x1, y1))] *)
  crop : Image -> box -> Image;
  (** [img.resize((w, h), resample=Image.BOX)] *)
  resize : Image -> Z * Z -> result Image;
  (** [img.save(b, format="PNG", optimize=True, compress_level=9)],
      as the bytes left in [b] *)
  save_png : Image -> list byte;
  (** Pillow keeps the two sides of an image in C integers; all that is
      used of this is that they are not negative and stay below [2^53],
      where integers are still exact as floats. *)
  size_range : forall img,
    0 <= width img < 2 ^ 53 /\ 0 <= height img < 2 ^ 53;
  convert_size : forall img m,
    width (convert img m) = width img /\ height (convert img m) = height img;
  (** a box inside the image is cut out as it is *)
  crop_size : forall img x0 y0 x1 y1,
    0 <= x0 <= x1 -> x1 <= width img -> 0 <= y0 <= y1 -> y1 <= height img ->
    width (crop img (x0, y0, x1, y1)) = x1 - x0 /\
    height (crop img (x0, y0, x1, y1)) = y1 - y0;
  resize_size : forall img w h r, resize img (w, h) = inr r ->
    width r = w /\ height r = h
}.

(** ** Tile partitioner *)

Section Partitioner.
Context {pil : PIL}.

Definition tile_of (img : Image) (tile_px : Z) (tx ty : Z) : Z * Z * box :=
  let y0 := ty * tile_px in
  let y1 := Z.min (y0 + tile_px) (height img) in
  let x0 := tx * tile_px in
  let x1 := Z.min (x0 + tile_px) (width img) in
  (tx, ty, (x0, y0, x1, y1)).

(** [iter_tiles(img, tile_px)], as the list the generator yields. *)
Definition iter_tiles (img : Image) (tile_px : Z) : result (list (Z * Z * box)) :=
  match ceil_truediv (width img) tile_px with
  | inl e => inl e
  | inr tiles_x =>
      match ceil_truediv (height img) tile_px with
      | inl e => inl e
      | inr tiles_y =>
          inr (flat_map (fun ty => map (fun tx => tile_of img tile_px tx ty)
                                       (py_range tiles_x))
                        (py_range tiles_y))
      end
  end.

End Partitioner.

(** [n] is the ceiling of [a / b], for [b > 0]. *)
Definition is_ceil (a b n : Z) : Prop := (n - 1) * b < a <= n * b.

(** Pixel [(x, y)] lies in a crop box (left and upper edge included, right
    and lower edge excluded). *)
Definition in_box (x y : Z) (b : box) : Prop :=
  let '(x0, y0, x1, y1) := b in x0 <= x < x1 /\ y0 <= y < y1.

(** A list laid out as a grid: one row of [xs] per element of [ys]. *)
Definition grid {A B C : Type} (g : A -> B -> C) (xs : list B) (ys : list A) : list C :=
  flat_map (fun y => map (g y) xs) ys.

(** ** [struct.pack] and the output file *)

Definition byte_of_Z (v : Z) : byte :=
  match Byte.of_N (Z.to_N (v mod 256)) with
  | Some b => b
  | None => x00
  end.

(** The [n] low bytes of [v], least significant first. *)
Fixpoint le_bytes (n : nat) (v : Z) : list byte :=
  match n with
  | O => []
  | S n' => byte_of_Z v :: le_bytes n' (v / 256)
  end.

(** [struct.pack("<I", v)]: raises [struct.error] outside [0, 2^32). *)
Definition struct_pack_I (v : Z) : result (list byte) :=
  if (0 <=? v) && (v <? 2 ^ 32) then inr (le_bytes 4 v) else inl StructError.

(** [struct.pack("<Q", v)]: raises [struct.error] outside [0, 2^64). *)
Definition struct_pack_Q (v : Z) : result (list byte) :=
  if (0 <=? v) && (v <? 2 ^ 64) then inr (le_bytes 8 v) else inl StructError.

(** [struct.pack] of a value that may still be [None]. *)
Definition struct_pack_opt (pack : Z -> result (list byte)) (v : option Z)
  : result (list byte) :=
  match v with
  | Some n => pack n
  | None => inl StructError
  end.

(** Reading a little-endian unsigned field back ([struct.unpack]). *)
Definition le_value (bs : list byte) : Z :=
  fold_right (fun b acc => Z.of_N (Byte.to_N b) + 256 * acc) 0 bs.

(** [bs[off : off + n]] *)
Definition slice (bs : list byte) (off n : nat) : list byte :=
  firstn n (skipn off bs).

(** The binary file opened by [open(out_atlas_path, "wb")]: its bytes and
    the stream position. *)
Record file : Type := mkfile { buf : list byte; pos : nat }.

Definition empty_file : file := mkfile [] 0.

(** Computations inside the [with] block: they may raise, and what they
    wrote before raising stays in the file. *)
Definition M (A : Type) : Type := file -> result A * file.

Definition ret {A} (a : A) : M A := fun f => (inr a, f).
Definition raise {A} (e : exn) : M A := fun f => (inl e, f).
Definition lift {A} (r : result A) : M A := fun f => (r, f).
Definition bind {A B} (m : M A) (k : A -> M B) : M B :=
  fun f => match m f with
           | (inl e, f') => (inl e, f')
           | (inr a, f') => k a f'
           end.

Notation "x <- m ;; k" := (bind m (fun x => k))
  (at level 61, m at next level, right associativity).
Notation "m ;;; k" := (bind m (fun _ => k))
  (at level 61, right associativity).

(** [f.write(bs)]: overwrites from the stream position, extending the file
    (zero-filled if the position is past the end). *)
Definition f_write (bs : list byte) : M unit :=
  fun f =>
    match bs with
    | [] => (inr tt, f)
    | _ => (inr tt,
            mkfile (firstn (pos f) (buf f)
                      ++ repeat x00 (pos f - length (buf f))
                      ++ bs ++ skipn (pos f + length bs) (buf f))
                   (pos f + length bs))
    end.

(** [f.tell()] *)
Definition f_tell : M Z := fun f => (inr (Z.of_nat (pos f)), f).

(** [f.seek(p)] *)
Definition f_seek (p : Z) : M unit :=
  fun f => if p <? 0 then (inl SeekError, f)
           else (inr tt, mkfile (buf f) (Z.to_nat p)).

(** [f.write(struct.pack("<I", v))] and [f.write(struct.pack("<Q", v))] *)
Definition write_I (v : Z) : M unit := bs <- lift (struct_pack_I v) ;; f_write bs.
Definition write_Q (v : Z) : M unit := bs <- lift (struct_pack_Q v) ;; f_write bs.
Definition write_I_opt (v : option Z) : M unit :=
  bs <- lift (struct_pack_opt struct_pack_I v) ;; f_write bs.
Definition write_Q_opt (v : option Z) : M unit :=
  bs <- lift (struct_pack_opt struct_pack_Q v) ;; f_write bs.

(** A [for] loop whose body writes to the file. *)
Fixpoint for_each {A} (xs : list A) (body : A -> M unit) : M unit :=
  match xs with
  | [] => ret tt
  | x :: xs' => body x ;;; for_each xs' body
  end.

(** A [for] loop that updates local variables [st] and may raise. *)
Fixpoint fold_result {A S} (body : S -> A -> result S) (xs : list A) (st : S)
  : result S :=
  match xs with
  | [] => inr st
  | x :: xs' => match body st x with
                | inl e => inl e
                | inr st' => fold_result body xs' st'
                end
  end.

(** [enumerate(xs)] *)
Definition enumerate {A} (xs : list A) : list (Z * A) :=
  combine (py_range (Z.of_nat (length xs))) xs.

(** ** Module constants *)

Definition TILE_PX_DEFAULT : Z := 256.
Definition MAGIC : list byte := [x41; x54; x4c; x53; x76; x31; x00; x00].
Definition VERSION : Z := 2.
Definition NUM_LAYERS : Z := 4.

(** ** Atlas writer *)

(** One element of [index_entries]:
    [[subsample, z, tx, ty, w, h, rel_off, length]], where [rel_off] is
    [None] until the offsets are resolved. *)
Record entry : Type := mk_entry {
  e_lod : Z; e_z : Z; e_tx : Z; e_ty : Z; e_w : Z; e_h : Z;
  e_rel_off : option Z; e_length : Z
}.

Definition set_rel_off (e : entry) (cursor : Z) : entry :=
  mk_entry (e_lod e) (e_z e) (e_tx e) (e_ty e) (e_w e) (e_h e) (Some cursor) (e_length e).

(** The key of a tile: [(lod, z, tile_x, tile_y)]. *)
Definition e_key (e : entry) : Z * Z * Z * Z := (e_lod e, e_z e, e_tx e, e_ty e).

(** The local variables of [pack_atlas_3d] when it returns. *)
Record summary : Type := mk_summary {
  s_width : Z; s_height : Z;
  s_header_end : Z;
  s_index_entries : list entry;
  s_tile_data_blobs : list (list byte);
  s_index_offset : Z;
  s_data_offset : Z
}.

Section Writer.
Context {pil : PIL}.

Definition to_rgba (img : Image) : Image :=
  if String.eqb (mode img) "RGBA" then img else convert img "RGBA".

Definition encode_png_bytes (tile_img : Image) : list byte * Z * Z :=
  let tile_img := to_rgba tile_img in
  let data := save_png tile_img in
  (data, width tile_img, height tile_img).

Definition build_downsampled (img : Image) (subsample : Z) : result Image :=
  if subsample =? 1 then inr img
  else if subsample =? 0 then inl ZeroDivisionError
  else
    let w := width img / subsample in
    let h := height img / subsample in
    resize img (w, h).

(** The validation loop over [src_png_paths]: the images read so far and
    [(width, height)], unset before the first layer. *)
Definition load_layer (st : list Image * option (Z * Z)) (path : string)
  : result (list Image * option (Z * Z)) :=
  let '(base_images, size) := st in
  match Image_open path with
  | inl e => inl e
  | inr img =>
      let img := to_rgba img in
      match size with
      | None => inr (base_images ++ [img], Some (width img, height img))
      | Some (w, h) =>
          if negb (width img =? w) || negb (height img =? h)
          then inl (ValueError_layer_size w h path (width img) (height img))
          else inr (base_images ++ [img], size)
      end
  end.

Definition load_layers (src_png_paths : list string)
  : result (list Image * option (Z * Z)) :=
  fold_result load_layer src_png_paths ([], None).

(** The first inner loop of a LOD: [downsampled_layers]. *)
Definition downsample_layer (base_images : list Image) (subsample : Z)
    (layers : list Image) (z : Z) : result (list Image) :=
  match nth_error base_images (Z.to_nat z) with
  | None => inl IndexError
  | Some img =>
      if subsample =? 1 then inr (layers ++ [img])
      else match build_downsampled img subsample with
           | inl e => inl e
           | inr base => inr (layers ++ [base])
           end
  end.

(** One tile of one layer: crop, encode, append to both lists. *)
Definition pack_tile (subsample z : Z) (base : Image)
    (st : list entry * list (list byte)) (t : Z * Z * box)
  : list entry * list (list byte) :=
  let '(index_entries, tile_data_blobs) := st in
  let '(tx, ty, b) := t in
  let tile := crop base b in
  let '(png_bytes, w, h) := encode_png_bytes tile in
  (index_entries ++ [mk_entry subsample z tx ty w h None (Z.of_nat (length png_bytes))],
   tile_data_blobs ++ [png_bytes]).

Definition pack_layer (subsample tile_px : Z)
    (st : list entry * list (list byte)) (zb : Z * Image)
  : result (list entry * list (list byte)) :=
  let '(z, base) := zb in
  match iter_tiles base tile_px with
  | inl e => inl e
  | inr tiles => inr (fold_left (pack_tile subsample z base) tiles st)
  end.

(** The body of [for subsample in lods]. *)
Definition pack_lod (base_images : list Image) (tile_px : Z)
    (st : list entry * list (list byte)) (subsample : Z)
  : result (list entry * list (list byte)) :=
  match fold_result (downsample_layer base_images subsample) (py_range NUM_LAYERS) [] with
  | inl e => inl e
  | inr downsampled_layers =>
      fold_result (pack_layer subsample tile_px) (enumerate downsampled_layers) st
  end.

(** The offset pass: [entry[6] = cursor; cursor += len(tile_data_blobs[i])]. *)
Fixpoint resolve_offsets (i : nat) (cursor : Z) (index_entries : list entry)
    (tile_data_blobs : list (list byte)) : result (list entry) :=
  match index_entries with
  | [] => inr []
  | e :: es =>
      match nth_error tile_data_blobs i with
      | None => inl IndexError
      | Some blob =>
          match resolve_offsets (S i) (cursor + Z.of_nat (length blob)) es tile_data_blobs with
          | inl ex => inl ex
          | inr es' => inr (set_rel_off e cursor :: es')
          end
      end
  end.

Definition write_entry (e : entry) : M unit :=
  write_I (e_lod e) ;;;
  write_I (e_z e) ;;;
  write_I (e_tx e) ;;;
  write_I (e_ty e) ;;;
  write_I (e_w e) ;;;
  write_I (e_h e) ;;;
  write_Q_opt (e_rel_off e) ;;;
  write_I (e_length e).

(** The body of the [with open(out_atlas_path, "wb") as f] block. *)
Definition pack_body (base_images : list Image) (size : option (Z * Z))
    (tile_px : Z) (lods : list Z) : M summary :=
  f_write MAGIC ;;;
  write_I VERSION ;;;
  write_I_opt (option_map fst size) ;;;
  write_I_opt (option_map snd size) ;;;
  write_I tile_px ;;;
  write_I (Z.of_nat (length lods)) ;;;
  for_each lods write_I ;;;
  match size with
  | None => raise StructError
  | Some (width, height) =>
      tiles_x_full <- lift (ceil_truediv width tile_px) ;;
      tiles_y_full <- lift (ceil_truediv height tile_px) ;;
      write_I tiles_x_full ;;;
      write_I tiles_y_full ;;;
      write_I NUM_LAYERS ;;;
      write_Q 0 ;;;
      write_Q 0 ;;;
      header_end <- f_tell ;;
      acc <- lift (fold_result (pack_lod base_images tile_px) lods ([], [])) ;;
      let '(index_entries, tile_data_blobs) := acc in
      index_offset <- f_tell ;;
      let entry_size := 36 in
      let index_size := Z.of_nat (length index_entries) * entry_size in
      let data_offset := index_offset + index_size in
      index_entries <- lift (resolve_offsets 0 0 index_entries tile_data_blobs) ;;
      for_each index_entries write_entry ;;;
      here <- f_tell ;;
      (if here =? data_offset then ret tt else raise AssertionError) ;;;
      for_each tile_data_blobs f_write ;;;
      f_seek (header_end - 16) ;;;
      write_Q index_offset ;;;
      write_Q data_offset ;;;
      ret (mk_summary width height header_end index_entries tile_data_blobs
             index_offset data_offset)
  end.

(** [pack_atlas_3d(src_png_paths, out_atlas_path, tile_px, lods)], for an
    [out_atlas_path] that [open(..., "wb")] can create and whose writes go
    through: the path itself is not looked at, and an [OSError] of the
    output file is outside this model.  The second component is the content
    of the file at [out_atlas_path] when the call ends, [None] if the call
    ended before the file was opened. *)
Definition pack_atlas_3d (src_png_paths : list string) (tile_px : Z) (lods : list Z)
  : result summary * option (list byte) :=
  if negb (Z.of_nat (length src_png_paths) =? NUM_LAYERS)
  then (inl (ValueError_layer_count NUM_LAYERS (Z.of_nat (length src_png_paths))), None)
  else
    match load_layers src_png_paths with
    | inl e => (inl e, None)
    | inr (base_images, size) =>
        let '(r, f) := pack_body base_images size tile_px lods empty_file in
        (r, Some (buf f))
    end.

End Writer.
(** ** LOD validation in [main] *)

(** [s.split(",")] on the characters of [s]; [cur] holds the current piece
    in reverse. *)
Fixpoint split_comma (cur cs : list ascii) : list (list ascii) :=
  match cs with
  | [] => [rev cur]
  | c :: cs' => if Ascii.eqb c "," then rev cur :: split_comma [] cs'
                else split_comma (c :: cur) cs'
  end.

(** Command-line strings are taken over the code points below 256 (one
    [ascii] each).  White space as [str.strip] sees it there: the ASCII
    controls 9-13 and 28-31, the space, NEL (133) and the no-break space
    (160). *)
Definition is_space (c : ascii) : bool :=
  let n := nat_of_ascii c in
  ((9 <=? n) && (n <=? 13) || (28 <=? n) && (n <=? 32)
   || (n =? 133) || (n =? 160))%nat.

Fixpoint drop_space (cs : list ascii) : list ascii :=
  match cs with
  | c :: cs' => if is_space c then drop_space cs' else cs
  | [] => []
  end.

(** [x.strip()] *)
Definition py_strip (cs : list ascii) : list ascii :=
  rev (drop_space (rev (drop_space cs))).

Definition digit_of (c : ascii) : option Z :=
  let n := nat_of_ascii c in
  if ((48 <=? n) && (n <=? 57))%nat then Some (Z.of_nat n - 48) else None.

(** [sys.get_int_max_str_digits()], at its default *)
Definition MAX_STR_DIGITS : Z := 4300.

(** The run of digits and underscores at the head of [cs]: how many digits
    it has, their value and what follows it; [None] when an underscore is
    doubled or ends the run. *)
Fixpoint scan_digits (ndigits acc : Z) (prev_underscore : bool) (cs : list ascii)
  : option (Z * Z * list ascii) :=
  match cs with
  | [] => if prev_underscore then None else Some (ndigits, acc, [])
  | c :: cs' =>
      match digit_of c with
      | Some d => scan_digits (ndigits + 1) (10 * acc + d) false cs'
      | None =>
          if Ascii.eqb c "_"
          then if prev_underscore then None else scan_digits ndigits acc true cs'
          else if prev_underscore then None else Some (ndigits, acc, cs)
      end
  end.

(** [int(x)] on an already stripped string: an optional sign, then digits
    with single underscores between them.  More than [MAX_STR_DIGITS]
    digits are refused before anything after them is looked at; every
    other malformed token is an invalid literal, reported with the token. *)
Definition py_int (cs : list ascii) : result Z :=
  let invalid := inl (ValueError_int_literal (string_of_list_ascii cs)) in
  let '(sign, body) :=
    match cs with
    | c :: cs' => if Ascii.eqb c "-" then (-1, cs')
                  else if Ascii.eqb c "+" then (1, cs') else (1, cs)
    | [] => (1, cs)
    end in
  match body with
  | [] => invalid
  | c :: _ =>
      if Ascii.eqb c "_" then invalid
      else match scan_digits 0 0 false body with
           | None => invalid
           | Some (ndigits, v, rest) =>
               if MAX_STR_DIGITS <? ndigits then inl ValueError_int_max_str_digits
               else match ndigits, rest with
                    | 0, _ => invalid
                    | _, [] => inr (sign * v)
                    | _, _ :: _ => invalid
                    end
           end
  end.

(** [[int(x.strip()) for x in args.lods.split(",") if x.strip()]] *)
Definition parse_lods (arg : string) : result (list Z) :=
  fold_result
    (fun lods x =>
       match py_strip x with
       | [] => inr lods
       | tok => match py_int tok with
                | inl e => inl e
                | inr v => inr (lods ++ [v])
                end
       end)
    (split_comma [] (list_ascii_of_string arg)) [].

(** The two checks on the parsed list. *)
Definition check_lods (lods : list Z) : result (list Z) :=
  match fold_result
          (fun (_ : unit) v =>
             if (v =? 1) || (v =? 2) || (v =? 4) then inr tt
             else inl (ValueError_lods "LOD values must be subset of 1,2,4"))
          lods tt with
  | inl e => inl e
  | inr _ =>
      match lods with
      | [] => inl (ValueError_lods "At least one LOD required")
      | _ => inr lods
      end
  end.

(** The [try] block of [main]: [inr lods] when it falls through; [inl e]
    when [e] is caught, [Invalid --lods] is printed and the process exits
    with status 2. *)
Definition main_lods (arg : string) : result (list Z) :=
  match parse_lods arg with
  | inl e => inl e
  | inr lods => check_lods lods
  end.

(** ** A Pillow stand-in for running the packer

    Solid-colour rasters, for which the box filter is exact; the encoder
    writes a fixed-size record instead of a PNG stream.  A side is kept
    inside the range of [size_range].  The directory holds four 300x300
    planes, one plane of another size and four 3x3 planes. *)

Record Raster : Type := mk_raster {
  r_width : Z; r_height : Z; r_mode : string; r_colour : Z
}.

Definition side (v : Z) : Z := Z.max 0 (Z.min v (2 ^ 53 - 1)).

Definition solid_open (path : string) : result Raster :=
  if String.eqb path "world_plane0.png" then inr (mk_raster 300 300 "RGBA" 0)
  else if String.eqb path "world_plane1.png" then inr (mk_raster 300 300 "RGB" 1)
  else if String.eqb path "world_plane2.png" then inr (mk_raster 300 300 "RGBA" 2)
  else if String.eqb path "world_plane3.png" then inr (mk_raster 300 300 "RGBA" 3)
  else if String.eqb path "world_plane_half.png" then inr (mk_raster 150 300 "RGBA" 4)
  else if String.eqb path "icon_plane0.png" then inr (mk_raster 3 3 "RGBA" 5)
  else if String.eqb path "icon_plane1.png" then inr (mk_raster 3 3 "RGBA" 6)
  else if String.eqb path "icon_plane2.png" then inr (mk_raster 3 3 "RGBA" 7)
  else if String.eqb path "icon_plane3.png" then inr (mk_raster 3 3 "RGBA" 8)
  else inl (OpenError path).

(** Pillow refuses a target size with a side below 1. *)
Definition solid_resize (r : Raster) (size : Z * Z) : result Raster :=
  let '(w, h) := size in
  if (w <? 1) || (h <? 1) || (2 ^ 53 <=? w) || (2 ^ 53 <=? h) then inl ResizeError
  else inr (mk_raster w h (r_mode r) (r_colour r)).

Definition solid_crop (r : Raster) (b : box) : Raster :=
  let '(x0, y0, x1, y1) := b in
  mk_raster (x1 - x0) (y1 - y0) (r_mode r) (r_colour r).

Definition solid_save (r : Raster) : list byte :=
  [x89; x50; x4e; x47] ++ le_bytes 4 (r_width r) ++ le_bytes 4 (r_height r)
    ++ le_bytes 1 (r_colour r).

#[local] Instance solid_pil : PIL.
Proof.
  refine {| Image := Raster;
            width := fun r => side (r_width r);
            height := fun r => side (r_height r);
            mode := r_mode;
            Image_open := solid_open;
            convert := fun r m => mk_raster (r_width r) (r_height r) m (r_colour r);
            crop := solid_crop;
            resize := solid_resize;
            save_png := solid_save |}.
  - intros img. unfold side. lia.
  - intros img m. split; reflexivity.
  - intros img x0 y0 x1 y1. unfold side, solid_crop. cbn [r_width r_height]. lia.
  - intros img w h r. unfold solid_resize, side.
    destruct (Z.ltb_spec w 1); [discriminate|].
    destruct (Z.ltb_spec h 1); [discriminate|].
    destruct (Z.leb_spec (2 ^ 53) w); [discriminate|].
    destruct (Z.leb_spec (2 ^ 53) h); [discriminate|].
    intros [= <-]. cbn [r_width r_height]. lia.
Defined.

Definition world_planes : list string :=
  ["world_plane0.png"; "world_plane1.png"; "world_plane2.png"; "world_plane3.png"]%string.

(** The same directory listing with the third plane swapped for the
    narrower one. *)
Definition odd_planes : list string :=
  ["world_plane0.png"; "world_plane1.png"; "world_plane_half.png"; "world_plane3.png"]%string.


(** The rasters behind [world_planes]. *)
Definition plane_rasters : list Raster :=
  [mk_raster 300 300 "RGBA" 0; mk_raster 300 300 "RGB" 1;
   mk_raster 300 300 "RGBA" 2; mk_raster 300 300 "RGBA" 3].

(** A raster of a single pixel. *)
Definition pixel : Raster := mk_raster 1 1 "RGBA" 0.

(** ** The container layout, as the format description gives it *)

Definition tile_box (t : Z * Z * box) : box := snd t.

(** A file whose stream position is at its end. *)
Definition at_eof (b : list byte) : file := mkfile b (length b).

(** Header fields up to and including [num_lods] (28 bytes). *)
Definition header_fixed (width height tile_px num_lods : Z) : list byte :=
  MAGIC ++ le_bytes 4 VERSION ++ le_bytes 4 width ++ le_bytes 4 height
    ++ le_bytes 4 tile_px ++ le_bytes 4 num_lods.

(** Header fields after the [lods] array, before the two offsets. *)
Definition header_grid (width height tile_px : Z) : list byte :=
  le_bytes 4 (py_ceil_div width tile_px) ++ le_bytes 4 (py_ceil_div height tile_px)
    ++ le_bytes 4 NUM_LAYERS.

Definition header_layout (width height tile_px : Z) (lods : list Z)
    (index_offset data_offset : Z) : list byte :=
  (header_fixed width height tile_px (Z.of_nat (length lods))
     ++ concat (map (le_bytes 4) lods)
     ++ header_grid width height tile_px)
    ++ le_bytes 8 index_offset ++ le_bytes 8 data_offset.

(** One 36-byte index record. *)
Definition entry_layout (e : entry) : list byte :=
  le_bytes 4 (e_lod e) ++ le_bytes 4 (e_z e) ++ le_bytes 4 (e_tx e)
    ++ le_bytes 4 (e_ty e) ++ le_bytes 4 (e_w e) ++ le_bytes 4 (e_h e)
    ++ le_bytes 8 (match e_rel_off e with Some r => r | None => 0 end)
    ++ le_bytes 4 (e_length e).

(** ** Production order, as the specification words it

    LOD outer loop in the supplied order, then layer [z] from 0 to 3, then
    tiles row by row; a tile is described by
    [(lod, z, tile_x, tile_y, pixel_w, pixel_h)]. *)

Definition shape : Type := (Z * Z * Z * Z * Z * Z)%type.

Definition e_shape (e : entry) : shape :=
  (e_lod e, e_z e, e_tx e, e_ty e, e_w e, e_h e).

Definition shape_key (sh : shape) : Z * Z * Z * Z :=
  let '(s, z, tx, ty, _, _) := sh in (s, z, tx, ty).

(** Size of the raster tiled for LOD factor [s]. *)
Definition lod_size (W H s : Z) : Z * Z :=
  if s =? 1 then (W, H) else (W / s, H / s).

Definition tile_shape (tile_px s z Ws Hs : Z) (ty tx : Z) : shape :=
  (s, z, tx, ty,
   Z.min (tx * tile_px + tile_px) Ws - tx * tile_px,
   Z.min (ty * tile_px + tile_px) Hs - ty * tile_px).

Definition layer_shapes (tile_px s z Ws Hs : Z) : list shape :=
  grid (tile_shape tile_px s z Ws Hs)
       (py_range (py_ceil_div Ws tile_px)) (py_range (py_ceil_div Hs tile_px)).

Definition lod_shapes (W H tile_px s : Z) : list shape :=
  flat_map (fun z => layer_shapes tile_px s z (fst (lod_size W H s)) (snd (lod_size W H s)))
           (py_range NUM_LAYERS).

Definition production_order (W H tile_px : Z) (lods : list Z) : list shape :=
  flat_map (lod_shapes W H tile_px) lods.

(** The offsets of a list of index entries are contiguous from [c]. *)
Fixpoint contiguous_from (c : Z) (es : list entry) : Prop :=
  match es with
  | [] => True
  | e :: es' => e_rel_off e = Some c /\ contiguous_from (c + e_length e) es'
  end.

(** Total payload length announced by a list of index entries. *)
Definition total_length (es : list entry) : Z :=
  fold_right (fun e acc => e_length e + acc) 0 es.

(** Entries and payloads stay parallel: each entry announces the length of
    its payload and has no offset yet. *)
Definition parallel (es : list entry) (bs : list (list byte)) : Prop :=
  Forall2 (fun e b => e_length e = Z.of_nat (length b) /\ e_rel_off e = None) es bs.

Section TileRecords.
Context {pil : PIL}.

Definition sized (W H : Z) (img : Image) : Prop := width img = W /\ height img = H.

(** What one tile of [base] adds to [index_entries] and [tile_data_blobs]. *)
Definition tile_blob (base : Image) (t : Z * Z * box) : list byte :=
  save_png (to_rgba (crop base (tile_box t))).

Definition tile_entry (subsample z : Z) (base : Image) (t : Z * Z * box) : entry :=
  let tile := to_rgba (crop base (tile_box t)) in
  mk_entry subsample z (fst (fst t)) (snd (fst t)) (width tile) (height tile) None
           (Z.of_nat (length (tile_blob base t))).

End TileRecords.

(** What a run of [pack_atlas_3d] that returns leaves behind: the locals
    [s] and the bytes of the output file. *)
Definition packed {pil : PIL} (src_png_paths : list string) (tile_px : Z)
    (lods : list Z) (s : summary) (bytes : list byte) : Prop :=
  let W := s_width s in
  let H := s_height s in
  let es := s_index_entries s in
  (exists imgs, load_layers src_png_paths = inr (imgs, Some (W, H))) /\
  0 < tile_px < 2 ^ 32 /\
  Forall (fun v => 0 <= v < 2 ^ 32) lods /\
  Z.of_nat (length lods) < 2 ^ 32 /\
  0 <= py_ceil_div W tile_px < 2 ^ 32 /\ 0 <= py_ceil_div H tile_px < 2 ^ 32 /\
  map e_shape es = production_order W H tile_px lods /\
  contiguous_from 0 es /\
  total_length es = Z.of_nat (length (concat (s_tile_data_blobs s))) /\
  s_header_end s = Z.of_nat (56 + 4 * length lods) /\
  s_index_offset s = s_header_end s /\
  s_data_offset s = s_index_offset s + 36 * Z.of_nat (length es) /\
  0 <= s_data_offset s < 2 ^ 64 /\
  bytes = header_layout W H tile_px lods (s_index_offset s) (s_data_offset s)
            ++ concat (map entry_layout es) ++ concat (s_tile_data_blobs s).

(** Whether [(lod, z, tile_x, tile_y)] names a tile of the LOD raster. *)
Definition valid_key (W H tile_px : Z) (key : Z * Z * Z * Z) : bool :=
  let '(s, z, tx, ty) := key in
  (0 <=? z) && (z <? NUM_LAYERS)
  && (0 <=? tx) && (tx <? py_ceil_div (fst (lod_size W H s)) tile_px)
  && (0 <=? ty) && (ty <? py_ceil_div (snd (lod_size W H s)) tile_px).

Definition key_eq_dec (a b : Z * Z * Z * Z) : {a = b} + {a <> b}.
Proof. repeat decide equality. Defined.

(** ** Reading the container back

    The reader side of the index table: the fields of one record, in the
    order [write_entry] emits them. *)

Definition read_u32 (bs : list byte) (off : nat) : Z := le_value (slice bs off 4).
Definition read_u64 (bs : list byte) (off : nat) : Z := le_value (slice bs off 8).

Definition read_entry (bs : list byte) (off : nat) : entry :=
  mk_entry (read_u32 bs off) (read_u32 bs (off + 4)) (read_u32 bs (off + 8))
           (read_u32 bs (off + 12)) (read_u32 bs (off + 16)) (read_u32 bs (off + 20))
           (Some (read_u64 bs (off + 24))) (read_u32 bs (off + 32)).

(** Every field of an index entry fits the width it is packed with. *)
Definition entry_ok (e : entry) : Prop :=
  0 <= e_lod e < 2 ^ 32 /\ 0 <= e_z e < 2 ^ 32 /\
  0 <= e_tx e < 2 ^ 32 /\ 0 <= e_ty e < 2 ^ 32 /\
  0 <= e_w e < 2 ^ 32 /\ 0 <= e_h e < 2 ^ 32 /\
  (exists r, e_rel_off e = Some r /\ 0 <= r < 2 ^ 64) /\
  0 <= e_length e < 2 ^ 32.

(** One step of the list comprehension of [parse_lods]. *)
Definition lods_step (lods : list Z) (x : list ascii) : result (list Z) :=
  match py_strip x with
  | [] => inr lods
  | tok => match py_int tok with
           | inl e => inl e
           | inr v => inr (lods ++ [v])
           end
  end.

(** The tile of shape [(lod, z, tx, ty, w, h)] is what [pack_atlas_3d]
    encodes for it: the crop, at the box of [(tx, ty)], of layer [z] of
    [imgs], downsampled unless [lod] is 1. *)
Definition tile_encoded {pil : PIL} (imgs : list Image) (tile_px : Z)
    (sh : shape) (b : list byte) : Prop :=
  let '(v, z, tx, ty, w, h) := sh in
  exists img base,
    nth_error imgs (Z.to_nat z) = Some img /\
    (if v =? 1 then base = img else build_downsampled img v = inr base) /\
    encode_png_bytes (crop base (tile_box (tile_of base tile_px tx ty))) = (b, w, h).

(** ** Lists laid out as grids *)

Section Grid.
Context {A B C : Type} (g : A -> B -> C).

Lemma grid_length xs ys : length (grid g xs ys) = (length ys * length xs)%nat.
Proof.
  unfold grid. induction ys as [|y ys IH]; simpl; auto.
  now rewrite length_app, length_map, IH.
Qed.

Lemma grid_nth xs ys i j a b :
  nth_error ys i = Some a -> nth_error xs j = Some b ->
  nth_error (grid g xs ys) (i * length xs + j) = Some (g a b).
Proof.
  unfold grid. revert i. induction ys as [|y ys IH]; intros i Hi Hj.
  - now destruct i.
  - assert (j < length xs)%nat by (apply nth_error_Some; congruence).
    destruct i as [|i]; simpl in *.
    + injection Hi as ->. rewrite nth_error_app1 by now rewrite length_map.
      now apply map_nth_error.
    + rewrite nth_error_app2 by (rewrite length_map; lia).
      rewrite length_map.
      replace (length xs + i * length xs + j - length xs)%nat
        with (i * length xs + j)%nat by lia.
      now apply IH.
Qed.

Lemma grid_nth_inv xs ys k c :
  nth_error (grid g xs ys) k = Some c ->
  exists i j a b, k = (i * length xs + j)%nat /\
    nth_error ys i = Some a /\ nth_error xs j = Some b /\ c = g a b.
Proof.
  unfold grid. revert k. induction ys as [|y ys IH]; intros k Hk; simpl in Hk.
  - now destruct k.
  - destruct (Nat.lt_ge_cases k (length xs)) as [Hlt|Hge].
    + rewrite nth_error_app1 in Hk by now rewrite length_map.
      rewrite nth_error_map in Hk.
      destruct (nth_error xs k) as [b|] eqn:Hb; [|discriminate].
      injection Hk as <-. now exists 0%nat, k, y, b.
    + rewrite nth_error_app2, length_map in Hk by now rewrite length_map.
      destruct (IH _ Hk) as (i & j & a & b & Hkk & Hi & Hj & ->).
      exists (S i), j, a, b. repeat split; auto. simpl. lia.
Qed.

End Grid.

Lemma py_range_length n : length (py_range n) = Z.to_nat n.
Proof. unfold py_range. now rewrite length_map, length_seq. Qed.

Lemma py_range_nth n k :
  (k < Z.to_nat n)%nat -> nth_error (py_range n) k = Some (Z.of_nat k).
Proof.
  intros Hk. unfold py_range. apply map_nth_error.
  rewrite nth_error_seq. destruct (Nat.ltb_spec k (Z.to_nat n)); [reflexivity|lia].
Qed.

Lemma py_range_nth_inv n k v :
  nth_error (py_range n) k = Some v -> v = Z.of_nat k /\ (k < Z.to_nat n)%nat.
Proof.
  intros Hk.
  assert (k < Z.to_nat n)%nat.
  { rewrite <- py_range_length. apply nth_error_Some. congruence. }
  rewrite py_range_nth in Hk by assumption. split; congruence.
Qed.

Lemma py_range_In n v : In v (py_range n) <-> 0 <= v < n.
Proof.
  unfold py_range. rewrite in_map_iff. split.
  - intros (k & <- & Hk). apply in_seq in Hk. lia.
  - intros Hv. exists (Z.to_nat v). split; [lia|]. apply in_seq. lia.
Qed.

Lemma py_ceil_div_is_ceil a b : 0 < b -> is_ceil a b (py_ceil_div a b).
Proof.
  intros Hb. unfold is_ceil, py_ceil_div.
  pose proof (Z.div_mod (- a) b ltac:(lia)) as Hdm.
  pose proof (Z.mod_pos_bound (- a) b Hb) as Hm.
  set (q := (- a) / b) in *. set (r := (- a) mod b) in *. lia.
Qed.

Lemma is_ceil_unique a b n m : 0 < b -> is_ceil a b n -> is_ceil a b m -> n = m.
Proof.
  unfold is_ceil. intros Hb Hn Hm.
  destruct (Z.lt_trichotomy n m) as [Hlt|[Heq|Hgt]]; [exfalso|assumption|exfalso].
  - assert (n * b <= (m - 1) * b) by (apply Z.mul_le_mono_nonneg_r; lia). lia.
  - assert (m * b <= (n - 1) * b) by (apply Z.mul_le_mono_nonneg_r; lia). lia.
Qed.

Lemma py_ceil_div_nonneg a b : 0 < b -> 0 <= a -> 0 <= py_ceil_div a b.
Proof.
  intros Hb Ha. pose proof (py_ceil_div_is_ceil a b Hb) as Hc. unfold is_ceil in Hc.
  destruct (Z.lt_ge_cases (py_ceil_div a b) 0) as [Hneg|]; [exfalso|assumption].
  assert (py_ceil_div a b * b <= (- 1) * b) by (apply Z.mul_le_mono_nonneg_r; lia). lia.
Qed.

(** Cells of a side [D] cut into pieces of [t]. *)

Lemma ceil_cell_lt D t tx : 0 < t -> tx < py_ceil_div D t -> tx * t < D.
Proof.
  intros Ht Hx. pose proof (py_ceil_div_is_ceil D t Ht) as Hc. unfold is_ceil in Hc.
  assert (tx * t <= (py_ceil_div D t - 1) * t) by (apply Z.mul_le_mono_nonneg_r; lia).
  lia.
Qed.

Lemma ceil_div_lt D t x : 0 < t -> x < D -> x / t < py_ceil_div D t.
Proof.
  intros Ht Hx. pose proof (py_ceil_div_is_ceil D t Ht) as Hc. unfold is_ceil in Hc.
  destruct (Z.lt_ge_cases (x / t) (py_ceil_div D t)) as [|Hge]; [assumption|exfalso].
  assert (py_ceil_div D t * t <= x / t * t) by (apply Z.mul_le_mono_nonneg_r; lia).
  pose proof (Z.mul_div_le x t Ht). lia.
Qed.

Lemma cell_of_pixel t x : 0 < t -> x / t * t <= x < x / t * t + t.
Proof.
  intros Ht. pose proof (Z.div_mod x t ltac:(lia)) as Hdm.
  pose proof (Z.mod_pos_bound x t Ht) as Hm.
  set (q := x / t) in *. set (r := x mod t) in *. lia.
Qed.

Lemma cell_unique t a b x :
  0 < t -> a * t <= x < a * t + t -> b * t <= x < b * t + t -> a = b.
Proof.
  intros Ht Ha Hb.
  assert (a = x / t) by (apply Z.div_unique with (r := x - a * t); lia).
  assert (b = x / t) by (apply Z.div_unique with (r := x - b * t); lia).
  congruence.
Qed.

Lemma py_ceil_div_0 t : py_ceil_div 0 t = 0.
Proof. unfold py_ceil_div. change (- 0) with 0. now rewrite Zdiv_0_l. Qed.

(** ** The float quotient *)

Lemma pow2_pos n : 0 <= n -> 0 < 2 ^ n.
Proof. intros. apply Z.pow_pos_nonneg; lia. Qed.

Lemma pow2_split n k : 0 <= k <= n -> 2 ^ n = 2 ^ k * 2 ^ (n - k).
Proof. intros. rewrite <- Z.pow_add_r by lia. f_equal. lia. Qed.

Lemma mul_lt_cancel a b c : 0 < c -> a * c < b * c -> a < b.
Proof. intros Hc H. now apply Z.mul_lt_mono_pos_r in H. Qed.

Lemma mul_le_cancel a b c : 0 < c -> a * c <= b * c -> a <= b.
Proof. intros Hc H. now apply Z.mul_le_mono_pos_r in H. Qed.

(** [quotient_log2 a b] is no larger than the binary logarithm of [a / b]. *)
Lemma quotient_log2_le a b :
  0 < a -> 0 < b ->
  b * 2 ^ Z.max 0 (quotient_log2 a b) <= a * 2 ^ Z.max 0 (- quotient_log2 a b).
Proof.
  intros Ha Hb. unfold quotient_log2.
  destruct (Z.leb_spec (b * 2 ^ Z.max 0 (Z.log2 a - Z.log2 b))
                       (a * 2 ^ Z.max 0 (- (Z.log2 a - Z.log2 b)))) as [Ht|_];
    [exact Ht|].
  pose proof (Z.log2_spec a Ha) as [Ha1 _].
  pose proof (Z.log2_spec b Hb) as [_ Hb2].
  pose proof (Z.log2_nonneg a) as Hla. pose proof (Z.log2_nonneg b) as Hlb.
  set (la := Z.log2 a) in *. set (lb := Z.log2 b) in *.
  destruct (Z.le_gt_cases 1 (la - lb)) as [Hd|Hd].
  - rewrite Z.max_r, Z.max_l, Z.mul_1_r by lia.
    assert (Hp : 0 < 2 ^ (la - lb - 1)) by (apply pow2_pos; lia).
    assert (b * 2 ^ (la - lb - 1) < 2 ^ Z.succ lb * 2 ^ (la - lb - 1))
      by (apply Z.mul_lt_mono_pos_r; assumption).
    rewrite <- Z.pow_add_r in H by lia.
    replace (Z.succ lb + (la - lb - 1)) with la in H by lia. lia.
  - rewrite Z.max_l, Z.max_r, Z.mul_1_r by lia.
    assert (Hp : 0 < 2 ^ (- (la - lb - 1))) by (apply pow2_pos; lia).
    assert (2 ^ la * 2 ^ (- (la - lb - 1)) <= a * 2 ^ (- (la - lb - 1)))
      by (apply Z.mul_le_mono_nonneg_r; lia).
    rewrite <- Z.pow_add_r in H by lia.
    replace (la + - (la - lb - 1)) with (Z.succ lb) in H by lia. lia.
Qed.

(** The exponent chosen for a numerator below [2^53]: zero only for the
    divisor 1, negative otherwise, and then small enough for a quotient
    with a fractional part to keep a non-zero fraction bit. *)
Lemma float_exponent a b :
  0 < a < 2 ^ 53 -> 0 < b ->
  let e := Z.max (quotient_log2 a b - 52) (- 1074) in
  (e = 0 /\ b = 1) \/
  (- 1074 <= e < 0 /\ (b < 2 ^ 1075 -> b < 2 ^ (1 - e))).
Proof.
  intros [Ha Ha53] Hb.
  pose proof (quotient_log2_le a b Ha Hb) as Hk.
  set (k := quotient_log2 a b) in *. intros e. subst e.
  destruct (Z.le_gt_cases 52 k) as [Hk52|Hk52].
  - left. rewrite Z.max_r, Z.max_l, Z.mul_1_r in Hk by lia.
    assert (H52 : 2 ^ 52 <= 2 ^ k) by (apply Z.pow_le_mono_r; lia).
    assert (b * 2 ^ 52 <= b * 2 ^ k) by (apply Z.mul_le_mono_nonneg_l; lia).
    assert (Hb1 : b = 1).
    { change (2 ^ 53) with (2 * 2 ^ 52) in Ha53.
      assert (b * 2 ^ 52 < 2 * 2 ^ 52) by lia.
      apply mul_lt_cancel in H0; [lia|reflexivity]. }
    split; [|assumption]. subst b.
    destruct (Z.le_gt_cases 53 k) as [Hk53|Hk53]; [exfalso|lia].
    assert (2 ^ 53 <= 2 ^ k) by (apply Z.pow_le_mono_r; lia). lia.
  - right. split; [lia|]. intros Hb1075.
    destruct (Z.le_gt_cases (- 1074) (k - 52)) as [Hc|Hc].
    + rewrite Z.max_l by lia. replace (1 - (k - 52)) with (53 - k) by lia.
      destruct (Z.le_gt_cases 0 k) as [Hk0|Hk0].
      * rewrite Z.max_r, Z.max_l, Z.mul_1_r in Hk by lia.
        rewrite (pow2_split 53 k) in Ha53 by lia.
        apply (mul_lt_cancel _ _ (2 ^ k)); [apply pow2_pos; lia|]. lia.
      * rewrite Z.max_l, Z.max_r, Z.mul_1_r in Hk by lia.
        assert (a * 2 ^ (- k) < 2 ^ 53 * 2 ^ (- k))
          by (apply Z.mul_lt_mono_pos_r; [apply pow2_pos; lia|assumption]).
        rewrite <- Z.pow_add_r in H by lia.
        replace (53 + - k) with (53 - k) in H by lia. lia.
    + rewrite Z.max_r by lia. exact Hb1075.
Qed.

Lemma round_half_even_bounds n d :
  0 <= n -> 0 < d ->
  let m := round_half_even n d in
  n / d <= m /\ (m = n / d \/ m = n / d + 1 /\ 0 < n mod d) /\
  (d < 2 * (n mod d) -> m = n / d + 1).
Proof.
  intros Hn Hd. unfold round_half_even.
  pose proof (Z.mod_pos_bound n d Hd).
  destruct (Z.ltb_spec (2 * (n mod d)) d); [lia|].
  destruct (Z.ltb_spec d (2 * (n mod d))); [lia|].
  destruct (Z.even (n / d)); lia.
Qed.

(** Rounding [a * 2^s / b] and taking the ceiling at scale [2^s] never
    passes the ceiling of [a / b]. *)
Lemma round_scaled_le a b s c :
  0 <= a -> 0 < b -> 0 <= s -> is_ceil a b c ->
  round_half_even (a * 2 ^ s) b <= c * 2 ^ s.
Proof.
  intros Ha Hb Hs [_ Hc].
  assert (Hp : 0 < 2 ^ s) by now apply pow2_pos.
  assert (HN : 0 <= a * 2 ^ s) by (apply Z.mul_nonneg_nonneg; lia).
  destruct (round_half_even_bounds (a * 2 ^ s) b HN Hb) as (_ & Hm & _).
  pose proof (Z.div_mod (a * 2 ^ s) b ltac:(lia)) as Hdm.
  pose proof (Z.mod_pos_bound (a * 2 ^ s) b Hb) as Hr.
  assert (HT : a * 2 ^ s <= c * 2 ^ s * b).
  { replace (c * 2 ^ s * b) with (c * b * 2 ^ s) by ring.
    apply Z.mul_le_mono_nonneg_r; lia. }
  set (q := a * 2 ^ s / b) in *. set (r := (a * 2 ^ s) mod b) in *.
  set (T := c * 2 ^ s) in *.
  destruct Hm as [-> | [-> Hr0]].
  - destruct (Z.le_gt_cases q T) as [|Hgt]; [assumption|exfalso].
    assert ((T + 1) * b <= q * b) by (apply Z.mul_le_mono_nonneg_r; lia). lia.
  - destruct (Z.le_gt_cases (q + 1) T) as [|Hgt]; [assumption|exfalso].
    assert (T * b <= q * b) by (apply Z.mul_le_mono_nonneg_r; lia). lia.
Qed.

(** With [b < 2^(s+1)] it does not fall short of it either. *)
Lemma round_scaled_gt a b s c :
  0 <= a -> 0 < b -> 0 <= s -> b < 2 ^ (s + 1) -> is_ceil a b c ->
  (c - 1) * 2 ^ s < round_half_even (a * 2 ^ s) b.
Proof.
  intros Ha Hb Hs Hbs [Hc _].
  assert (Hp : 0 < 2 ^ s) by now apply pow2_pos.
  assert (HN : 0 <= a * 2 ^ s) by (apply Z.mul_nonneg_nonneg; lia).
  destruct (round_half_even_bounds (a * 2 ^ s) b HN Hb) as (Hlo & _ & Hup).
  pose proof (Z.div_mod (a * 2 ^ s) b ltac:(lia)) as Hdm.
  pose proof (Z.mod_pos_bound (a * 2 ^ s) b Hb) as Hr.
  assert (HL : (c - 1) * 2 ^ s * b + 2 ^ s <= a * 2 ^ s).
  { replace ((c - 1) * 2 ^ s * b + 2 ^ s) with (((c - 1) * b + 1) * 2 ^ s) by ring.
    apply Z.mul_le_mono_nonneg_r; lia. }
  rewrite Z.pow_add_r, Z.pow_1_r in Hbs by lia.
  set (q := a * 2 ^ s / b) in *. set (r := (a * 2 ^ s) mod b) in *.
  set (L := (c - 1) * 2 ^ s) in *.
  destruct (Z.lt_trichotomy q L) as [Hlt|[Heq|Hgt]]; [exfalso| |lia].
  - assert ((q + 1) * b <= L * b) by (apply Z.mul_le_mono_nonneg_r; lia). lia.
  - rewrite Hup; [lia|]. rewrite Heq in Hdm. lia.
Qed.

(** The shape of [nearest_float] on a numerator below [2^53]. *)
Lemma nearest_float_small a b :
  0 < a < 2 ^ 53 -> 0 < b ->
  (b = 1 /\ nearest_float a b = Some (a, 0)) \/
  (exists s, 0 < s /\
     nearest_float a b = Some (round_half_even (a * 2 ^ s) b, - s) /\
     (b < 2 ^ 1075 -> b < 2 ^ (s + 1))).
Proof.
  intros Ha Hb. unfold nearest_float.
  destruct (Z.eqb_spec a 0) as [|_]; [lia|].
  pose proof (float_exponent a b Ha Hb) as He. cbv zeta in He.
  set (e := Z.max (quotient_log2 a b - 52) (- 1074)) in *.
  destruct He as [[He ->] | [He Hbe]].
  - left. split; [reflexivity|]. rewrite He. cbn [Z.max Z.opp Z.compare].
    change (2 ^ 0) with 1. rewrite !Z.mul_1_r.
    assert (Hr : round_half_even a 1 = a).
    { unfold round_half_even. rewrite Z.mod_1_r, Z.div_1_r. reflexivity. }
    rewrite Hr. cbn [Z.leb Z.compare andb].
    destruct (Z.leb_spec (2 ^ 1024) a) as [Hbig|_]; [exfalso|reflexivity].
    assert (2 ^ 53 < 2 ^ 1024) by (apply Z.pow_lt_mono_r; lia). lia.
  - right. exists (- e). split; [lia|].
    destruct (Z.leb_spec 0 e) as [|_]; [lia|]. cbn [andb].
    rewrite (Z.max_r 0 (- e)), (Z.max_l 0 e), Z.opp_involutive by lia.
    change (2 ^ 0) with 1. rewrite Z.mul_1_r.
    split; [reflexivity|]. intros Hlt. specialize (Hbe Hlt).
    now replace (- e + 1) with (1 - e) by lia.
Qed.

Lemma math_ceil_scaled m s : 0 < s -> math_ceil (m, - s) = py_ceil_div m (2 ^ s).
Proof.
  intros Hs. unfold math_ceil.
  rewrite (Z.max_l 0 (- s)), Z.opp_involutive, (Z.max_r 0 s) by lia.
  change (2 ^ 0) with 1. now rewrite Z.mul_1_r.
Qed.

Lemma py_ceil_div_1 a : py_ceil_div a 1 = a.
Proof. unfold py_ceil_div. rewrite Z.div_1_r. lia. Qed.

Lemma round_half_even_nonneg n d : 0 <= n -> 0 < d -> 0 <= round_half_even n d.
Proof.
  intros Hn Hd. destruct (round_half_even_bounds n d Hn Hd) as (Hlo & _).
  pose proof (Z.div_pos n d Hn Hd). lia.
Qed.

(** [ceil(a / b)] on a numerator below [2^53] and a positive divisor never
    exceeds the exact ceiling. *)
Lemma ceil_truediv_le a b :
  0 <= a < 2 ^ 53 -> 0 < b ->
  exists n, ceil_truediv a b = inr n /\ 0 <= n <= py_ceil_div a b.
Proof.
  intros Ha Hb. unfold ceil_truediv, py_truediv.
  destruct (Z.eqb_spec b 0) as [|_]; [lia|].
  rewrite (Z.abs_eq a), (Z.abs_eq b) by lia.
  destruct (Z.ltb_spec a 0) as [|_]; [lia|].
  destruct (Z.ltb_spec b 0) as [|_]; [lia|]. cbn [xorb].
  destruct (Z.eq_dec a 0) as [->|Ha0].
  - exists 0. rewrite py_ceil_div_0. split; [reflexivity|lia].
  - destruct (nearest_float_small a b ltac:(lia) Hb)
      as [[-> ->] | (s & Hs & -> & _)].
    + exists a. rewrite py_ceil_div_1. split; [|lia].
      unfold math_ceil. cbn [Z.max Z.opp Z.compare]. change (2 ^ 0) with 1.
      now rewrite Z.mul_1_r, py_ceil_div_1.
    + rewrite math_ceil_scaled by assumption. eexists. split; [reflexivity|].
      assert (Hp : 0 < 2 ^ s) by (apply pow2_pos; lia).
      assert (HN : 0 <= a * 2 ^ s) by (apply Z.mul_nonneg_nonneg; lia).
      pose proof (round_half_even_nonneg (a * 2 ^ s) b HN Hb) as Hm0.
      pose proof (round_scaled_le a b s _ ltac:(lia) Hb ltac:(lia)
                    (py_ceil_div_is_ceil a b Hb)) as Hle.
      split; [now apply py_ceil_div_nonneg|].
      pose proof (py_ceil_div_is_ceil (round_half_even (a * 2 ^ s) b) (2 ^ s) Hp)
        as [Hc _].
      set (n := py_ceil_div (round_half_even (a * 2 ^ s) b) (2 ^ s)) in *.
      destruct (Z.le_gt_cases n (py_ceil_div a b)) as [|Hgt]; [assumption|exfalso].
      assert (py_ceil_div a b * 2 ^ s <= (n - 1) * 2 ^ s)
        by (apply Z.mul_le_mono_nonneg_r; lia). lia.
Qed.

(** Below [2^1075] the divisor is small enough for the two to agree. *)
Lemma ceil_truediv_exact a b :
  0 <= a < 2 ^ 53 -> 0 < b < 2 ^ 1075 ->
  ceil_truediv a b = inr (py_ceil_div a b).
Proof.
  intros Ha [Hb Hb1075]. unfold ceil_truediv, py_truediv.
  destruct (Z.eqb_spec b 0) as [|_]; [lia|].
  rewrite (Z.abs_eq a), (Z.abs_eq b) by lia.
  destruct (Z.ltb_spec a 0) as [|_]; [lia|].
  destruct (Z.ltb_spec b 0) as [|_]; [lia|]. cbn [xorb].
  destruct (Z.eq_dec a 0) as [->|Ha0].
  - now rewrite py_ceil_div_0.
  - destruct (nearest_float_small a b ltac:(lia) Hb)
      as [[-> ->] | (s & Hs & -> & Hbs)].
    + unfold math_ceil. cbn [Z.max Z.opp Z.compare]. change (2 ^ 0) with 1.
      now rewrite Z.mul_1_r, !py_ceil_div_1.
    + rewrite math_ceil_scaled by assumption. f_equal.
      assert (Hp : 0 < 2 ^ s) by (apply pow2_pos; lia).
      apply (is_ceil_unique (round_half_even (a * 2 ^ s) b) (2 ^ s)); [assumption| |].
      * now apply py_ceil_div_is_ceil.
      * split.
        -- apply round_scaled_gt;
             [lia|lia|lia|now apply Hbs|now apply py_ceil_div_is_ceil].
        -- apply round_scaled_le; [lia|lia|lia|now apply py_ceil_div_is_ceil].
Qed.

(** A negative divisor under a non-negative numerator gives no tile row. *)
Lemma ceil_truediv_neg a b :
  0 <= a < 2 ^ 53 -> b < 0 ->
  exists n, ceil_truediv a b = inr n /\ n <= 0.
Proof.
  intros Ha Hb. unfold ceil_truediv, py_truediv.
  destruct (Z.eqb_spec b 0) as [|_]; [lia|].
  rewrite (Z.abs_eq a), (Z.abs_neq b) by lia.
  destruct (Z.ltb_spec a 0) as [|_]; [lia|].
  destruct (Z.ltb_spec b 0) as [_|]; [|lia]. cbn [xorb].
  destruct (Z.eq_dec a 0) as [->|Ha0].
  - exists 0. split; [reflexivity|lia].
  - destruct (nearest_float_small a (- b) ltac:(lia) ltac:(lia))
      as [[_ ->] | (s & Hs & -> & _)].
    + eexists. split; [reflexivity|].
      unfold math_ceil. cbn [Z.max Z.opp Z.compare]. change (2 ^ 0) with 1.
      rewrite Z.mul_1_r, py_ceil_div_1. lia.
    + rewrite math_ceil_scaled by assumption. eexists. split; [reflexivity|].
      assert (Hp : 0 < 2 ^ s) by (apply pow2_pos; lia).
      assert (HN : 0 <= a * 2 ^ s) by (apply Z.mul_nonneg_nonneg; lia).
      pose proof (round_half_even_nonneg (a * 2 ^ s) (- b) HN ltac:(lia)) as Hm0.
      unfold py_ceil_div. rewrite Z.opp_involutive.
      pose proof (Z.div_pos (round_half_even (a * 2 ^ s) (- b)) (2 ^ s) Hm0 Hp). lia.
Qed.

Lemma ceil_truediv_zero a : ceil_truediv a 0 = inl ZeroDivisionError.
Proof. reflexivity. Qed.

Lemma ceil_truediv_inv a b n :
  0 <= a < 2 ^ 53 -> 0 <= b < 2 ^ 1075 ->
  ceil_truediv a b = inr n -> b <> 0 /\ n = py_ceil_div a b.
Proof.
  intros Ha Hb Hn. destruct (Z.eq_dec b 0) as [->|Hb0]; [discriminate|].
  rewrite ceil_truediv_exact in Hn by lia. split; congruence.
Qed.

Lemma pow_32_1075 : 2 ^ 32 < 2 ^ 1075.
Proof. apply Z.pow_lt_mono_r; lia. Qed.

(** Operands that fit an unsigned 32-bit field. *)
Lemma ceil_truediv_u32 a b :
  0 <= a < 2 ^ 32 -> 0 < b < 2 ^ 32 -> ceil_truediv a b = inr (py_ceil_div a b).
Proof.
  intros Ha Hb. pose proof pow_32_1075. apply ceil_truediv_exact; lia.
Qed.

Lemma ceil_truediv_u32_inv a b n :
  0 <= a < 2 ^ 32 -> 0 <= b < 2 ^ 32 ->
  ceil_truediv a b = inr n -> 0 < b /\ n = py_ceil_div a b.
Proof.
  intros Ha Hb Hn. pose proof pow_32_1075.
  apply ceil_truediv_inv in Hn as [Hb0 ->]; [|lia|lia]. split; [lia|reflexivity].
Qed.
(** ** The tile partitioner *)

Section PartitionerFacts.
Context {pil : PIL}.

Lemma iter_tiles_grid img t :
  0 < t < 2 ^ 1075 ->
  iter_tiles img t =
    inr (grid (fun ty tx => tile_of img t tx ty)
              (py_range (py_ceil_div (width img) t))
              (py_range (py_ceil_div (height img) t))).
Proof.
  intros Ht. unfold iter_tiles. destruct (size_range img) as [HW HH].
  now rewrite !ceil_truediv_exact by assumption.
Qed.

Lemma iter_tiles_grid_u32 img t :
  0 < t < 2 ^ 32 ->
  iter_tiles img t =
    inr (grid (fun ty tx => tile_of img t tx ty)
              (py_range (py_ceil_div (width img) t))
              (py_range (py_ceil_div (height img) t))).
Proof. intros Ht. apply iter_tiles_grid. pose proof pow_32_1075. lia. Qed.

Lemma grid_range_nth {C} (g : Z -> Z -> C) nx ny tx ty :
  0 <= tx < nx -> 0 <= ty < ny ->
  nth_error (grid g (py_range nx) (py_range ny)) (Z.to_nat (ty * nx + tx))
    = Some (g ty tx).
Proof.
  intros Hx Hy.
  assert (Hk : Z.to_nat (ty * nx + tx)
               = (Z.to_nat ty * length (py_range nx) + Z.to_nat tx)%nat).
  { rewrite py_range_length, Z2Nat.inj_add, Z2Nat.inj_mul; try lia.
    apply Z.mul_nonneg_nonneg; lia. }
  rewrite Hk.
  replace (g ty tx) with (g (Z.of_nat (Z.to_nat ty)) (Z.of_nat (Z.to_nat tx)))
    by (now rewrite !Z2Nat.id by lia).
  apply grid_nth; apply py_range_nth; lia.
Qed.

Lemma grid_range_nth_inv {C} (g : Z -> Z -> C) nx ny k c :
  nth_error (grid g (py_range nx) (py_range ny)) k = Some c ->
  exists tx ty, 0 <= tx < nx /\ 0 <= ty < ny /\
    k = Z.to_nat (ty * nx + tx) /\ c = g ty tx.
Proof.
  intros Hk. apply grid_nth_inv in Hk as (i & j & a & b & -> & Hi & Hj & ->).
  apply py_range_nth_inv in Hi as [-> Hi], Hj as [-> Hj].
  exists (Z.of_nat j), (Z.of_nat i). rewrite py_range_length.
  repeat split; lia.
Qed.

Lemma grid_range_In {C} (g : Z -> Z -> C) nx ny c :
  In c (grid g (py_range nx) (py_range ny)) <->
  exists tx ty, 0 <= tx < nx /\ 0 <= ty < ny /\ c = g ty tx.
Proof.
  split.
  - intros Hin. apply In_nth_error in Hin as [k Hk].
    apply grid_range_nth_inv in Hk as (tx & ty & ? & ? & _ & ->). eauto.
  - intros (tx & ty & Hx & Hy & ->).
    eapply nth_error_In. now apply grid_range_nth.
Qed.

Lemma grid_range_length {C} (g : Z -> Z -> C) nx ny :
  0 <= nx -> 0 <= ny ->
  Z.of_nat (length (grid g (py_range nx) (py_range ny))) = nx * ny.
Proof.
  intros. rewrite grid_length, !py_range_length, Nat2Z.inj_mul, !Z2Nat.id by lia.
  apply Z.mul_comm.
Qed.

(** C3 (amended): for non-negative image sides and a tile edge
    [0 < tile_px < 2^1075], the
    partitioner yields exactly one tile per pair [(tile_x, tile_y)] with
    [tile_x] in [0 .. ceil(image_width/tile_px)-1] and [tile_y] in
    [0 .. ceil(image_height/tile_px)-1], in row-major order with [tile_y]
    outermost (tile [(tile_x, tile_y)] is element number
    [tile_y * ceil(image_width/tile_px) + tile_x]), and its box is
    [x0 = tile_x * tile_px], [x1 = min(x0 + tile_px, image_width)],
    [y0 = tile_y * tile_px], [y1 = min(y0 + tile_px, image_height)]. *)
Theorem iter_tiles_row_major (img : Image) (tile_px : Z) :
  0 <= width img -> 0 <= height img -> 0 < tile_px < 2 ^ 1075 ->
  exists nx ny l,
    is_ceil (width img) tile_px nx /\ is_ceil (height img) tile_px ny /\
    iter_tiles img tile_px = inr l /\
    Z.of_nat (length l) = nx * ny /\
    forall tx ty, 0 <= tx < nx -> 0 <= ty < ny ->
      nth_error l (Z.to_nat (ty * nx + tx)) =
        Some (tx, ty, (tx * tile_px, ty * tile_px,
                       Z.min (tx * tile_px + tile_px) (width img),
                       Z.min (ty * tile_px + tile_px) (height img))).
Proof.
  intros HW HH [Ht Htmax].
  exists (py_ceil_div (width img) tile_px), (py_ceil_div (height img) tile_px).
  eexists. split; [now apply py_ceil_div_is_ceil|].
  split; [now apply py_ceil_div_is_ceil|].
  split; [now apply iter_tiles_grid|].
  split.
  - apply grid_range_length; now apply py_ceil_div_nonneg.
  - intros tx ty Hx Hy.
    now rewrite (grid_range_nth (fun ty tx => tile_of img tile_px tx ty)).
Qed.

(** C9 (amended): for non-negative image sides and a tile edge
    [0 < tile_px < 2^1075], the boxes
    the partitioner yields are non-empty and pairwise disjoint, their union
    is exactly the pixels of [[0, image_width) x [0, image_height)], and
    there are [ceil(image_width/tile_px) * ceil(image_height/tile_px)] of
    them, none when a side is zero. *)
Theorem iter_tiles_partition (img : Image) (tile_px : Z) :
  0 <= width img -> 0 <= height img -> 0 < tile_px < 2 ^ 1075 ->
  exists l,
    iter_tiles img tile_px = inr l /\
    (forall tx ty x0 y0 x1 y1,
        In (tx, ty, (x0, y0, x1, y1)) l -> x0 < x1 /\ y0 < y1) /\
    (forall i j ti tj x y,
        i <> j -> nth_error l i = Some ti -> nth_error l j = Some tj ->
        ~ (in_box x y (tile_box ti) /\ in_box x y (tile_box tj))) /\
    (forall x y,
        (exists t, In t l /\ in_box x y (tile_box t)) <->
        0 <= x < width img /\ 0 <= y < height img) /\
    (exists nx ny,
        is_ceil (width img) tile_px nx /\ is_ceil (height img) tile_px ny /\
        Z.of_nat (length l) = nx * ny) /\
    (width img = 0 \/ height img = 0 -> l = []).
Proof.
  intros HW HH [Ht Htmax].
  pose proof (py_ceil_div_is_ceil (width img) tile_px Ht) as Hcx.
  pose proof (py_ceil_div_is_ceil (height img) tile_px Ht) as Hcy.
  pose proof (py_ceil_div_nonneg (width img) tile_px Ht HW) as Hnx.
  pose proof (py_ceil_div_nonneg (height img) tile_px Ht HH) as Hny.
  set (nx := py_ceil_div (width img) tile_px) in *.
  set (ny := py_ceil_div (height img) tile_px) in *.
  unfold is_ceil in Hcx, Hcy.
  eexists. split; [now apply iter_tiles_grid|]. fold nx ny.
  refine (conj _ (conj _ (conj _ (conj _ _)))).
  - intros tx ty x0 y0 x1 y1 Hin.
    apply grid_range_In in Hin as (tx' & ty' & Hx & Hy & Heq).
    unfold tile_of in Heq. injection Heq as -> -> -> -> -> ->.
    pose proof (ceil_cell_lt (width img) tile_px tx' Ht (proj2 Hx)).
    pose proof (ceil_cell_lt (height img) tile_px ty' Ht (proj2 Hy)). lia.
  - intros i j ti tj x y Hij Hi Hj [Hbi Hbj].
    apply grid_range_nth_inv in Hi as (txi & tyi & Hxi & Hyi & -> & ->).
    apply grid_range_nth_inv in Hj as (txj & tyj & Hxj & Hyj & -> & ->).
    unfold tile_box, tile_of, in_box in Hbi, Hbj. cbn [snd] in Hbi, Hbj.
    assert (txi = txj) by (apply (cell_unique tile_px txi txj x); lia).
    assert (tyi = tyj) by (apply (cell_unique tile_px tyi tyj y); lia).
    subst. now apply Hij.
  - intros x y. split.
    + intros (t & Hin & Hbox).
      apply grid_range_In in Hin as (tx & ty & Hx & Hy & ->).
      unfold tile_box, tile_of, in_box in Hbox. cbn [snd] in Hbox.
      assert (0 <= tx * tile_px) by (apply Z.mul_nonneg_nonneg; lia).
      assert (0 <= ty * tile_px) by (apply Z.mul_nonneg_nonneg; lia). lia.
    + intros [[Hx0 Hx1] [Hy0 Hy1]].
      pose proof (cell_of_pixel tile_px x Ht) as Hpx.
      pose proof (cell_of_pixel tile_px y Ht) as Hpy.
      exists (tile_of img tile_px (x / tile_px) (y / tile_px)). split.
      * apply grid_range_In. exists (x / tile_px), (y / tile_px).
        split; [split; [apply Z.div_pos; lia|now apply ceil_div_lt]|].
        split; [split; [apply Z.div_pos; lia|now apply ceil_div_lt]|reflexivity].
      * unfold tile_box, tile_of, in_box. cbn [snd]. lia.
  - exists nx, ny. repeat split; try tauto. now apply grid_range_length.
  - intros Hz. apply length_zero_iff_nil.
    rewrite grid_length, !py_range_length. unfold nx, ny.
    destruct Hz as [-> | ->]; rewrite py_ceil_div_0; simpl; lia.
Qed.

End PartitionerFacts.

(** From [2^1075] on, the float quotient of a small side by the tile edge
    rounds to zero and no tile is yielded. *)
Lemma iter_tiles_pixel_huge :
  iter_tiles (pil := solid_pil) pixel (2 ^ 1075) = inr [].
Proof. vm_compute. reflexivity. Qed.

Lemma is_ceil_pixel_huge : is_ceil 1 (2 ^ 1075) 1.
Proof.
  unfold is_ceil. split; [reflexivity|].
  apply Z.leb_le. vm_compute. reflexivity.
Qed.

(** C3, as stated for every positive tile edge, fails on a one-pixel image
    cut with [tile_px = 2^1075]: the only tile [(0, 0)] is not yielded. *)
Lemma iter_tiles_row_major_counterexample :
  0 <= @width solid_pil pixel /\ 0 <= @height solid_pil pixel /\
  0 < 2 ^ 1075 /\
  ~ (exists nx ny l,
       is_ceil (@width solid_pil pixel) (2 ^ 1075) nx /\
       is_ceil (@height solid_pil pixel) (2 ^ 1075) ny /\
       iter_tiles (pil := solid_pil) pixel (2 ^ 1075) = inr l /\
       Z.of_nat (length l) = nx * ny /\
       forall tx ty, 0 <= tx < nx -> 0 <= ty < ny ->
         nth_error l (Z.to_nat (ty * nx + tx)) =
           Some (tx, ty, (tx * 2 ^ 1075, ty * 2 ^ 1075,
                          Z.min (tx * 2 ^ 1075 + 2 ^ 1075) (@width solid_pil pixel),
                          Z.min (ty * 2 ^ 1075 + 2 ^ 1075) (@height solid_pil pixel)))).
Proof.
  assert (Ht : 0 < 2 ^ 1075) by (apply Z.pow_pos_nonneg; lia).
  split; [vm_compute; discriminate|]. split; [vm_compute; discriminate|].
  split; [exact Ht|].
  intros (nx & ny & l & Hx & Hy & Hl & Hlen & _).
  rewrite iter_tiles_pixel_huge in Hl. injection Hl as <-.
  change (@width solid_pil pixel) with 1 in Hx.
  change (@height solid_pil pixel) with 1 in Hy.
  rewrite (is_ceil_unique _ _ _ _ Ht Hx is_ceil_pixel_huge) in Hlen.
  rewrite (is_ceil_unique _ _ _ _ Ht Hy is_ceil_pixel_huge) in Hlen.
  discriminate.
Qed.

(** C9, as stated for every positive tile edge, fails on the same input:
    the boxes yielded (none) do not cover the pixel [(0, 0)]. *)
Lemma iter_tiles_partition_counterexample :
  0 <= @width solid_pil pixel /\ 0 <= @height solid_pil pixel /\
  0 < 2 ^ 1075 /\
  ~ (exists l,
       iter_tiles (pil := solid_pil) pixel (2 ^ 1075) = inr l /\
       forall x y,
         (exists t, In t l /\ in_box x y (tile_box t)) <->
         0 <= x < @width solid_pil pixel /\
         0 <= y < @height solid_pil pixel).
Proof.
  split; [vm_compute; discriminate|]. split; [vm_compute; discriminate|].
  split; [apply Z.pow_pos_nonneg; lia|].
  intros (l & Hl & Hcover).
  rewrite iter_tiles_pixel_huge in Hl. injection Hl as <-.
  destruct (proj2 (Hcover 0 0)) as (t & [] & _).
  change (@width solid_pil pixel) with 1.
  change (@height solid_pil pixel) with 1. lia.
Qed.
(** ** Little-endian fields *)

Lemma le_bytes_length n v : length (le_bytes n v) = n.
Proof. revert v. induction n as [|n IH]; intros v; simpl; auto. Qed.

Lemma byte_of_Z_value v : Z.of_N (Byte.to_N (byte_of_Z v)) = v mod 256.
Proof.
  unfold byte_of_Z.
  pose proof (Z.mod_pos_bound v 256 ltac:(lia)) as Hb.
  destruct (Byte.of_N (Z.to_N (v mod 256))) as [b|] eqn:Hof.
  - apply Byte.to_of_N in Hof. rewrite Hof. lia.
  - apply Byte.of_N_None_iff in Hof. lia.
Qed.

Lemma le_value_le_bytes n v :
  0 <= v < 256 ^ Z.of_nat n -> le_value (le_bytes n v) = v.
Proof.
  revert v. induction n as [|n IH]; intros v Hv.
  - simpl in *. lia.
  - cbn [le_bytes le_value fold_right]. fold (le_value (le_bytes n (v / 256))).
    rewrite byte_of_Z_value.
    rewrite Nat2Z.inj_succ, Z.pow_succ_r in Hv by lia.
    rewrite IH.
    + pose proof (Z.div_mod v 256 ltac:(lia)). lia.
    + split; [apply Z.div_pos; lia|apply Z.div_lt_upper_bound; lia].
Qed.

Lemma struct_pack_I_inv v bs :
  struct_pack_I v = inr bs -> 0 <= v < 2 ^ 32 /\ bs = le_bytes 4 v.
Proof.
  unfold struct_pack_I.
  destruct (Z.leb_spec 0 v), (Z.ltb_spec v (2 ^ 32)); simpl; intros [=]; auto.
Qed.

Lemma struct_pack_Q_inv v bs :
  struct_pack_Q v = inr bs -> 0 <= v < 2 ^ 64 /\ bs = le_bytes 8 v.
Proof.
  unfold struct_pack_Q.
  destruct (Z.leb_spec 0 v), (Z.ltb_spec v (2 ^ 64)); simpl; intros [=]; auto.
Qed.

Lemma slice_app_mid (pre mid post : list byte) :
  slice (pre ++ mid ++ post) (length pre) (length mid) = mid.
Proof.
  unfold slice. rewrite skipn_app, Nat.sub_diag, skipn_all. simpl.
  rewrite firstn_app, Nat.sub_diag, firstn_all. simpl. apply app_nil_r.
Qed.

(** ** Writing to the file *)

Lemma bind_inv {A B} (m : M A) (k : A -> M B) f r f2 :
  bind m k f = (inr r, f2) ->
  exists a f1, m f = (inr a, f1) /\ k a f1 = (inr r, f2).
Proof.
  unfold bind. destruct (m f) as [[e|a] f1]; [discriminate|]. eauto.
Qed.

Lemma lift_inv {A} (x : result A) f r f' :
  lift x f = (inr r, f') -> x = inr r /\ f' = f.
Proof. unfold lift. intros [= -> ->]. auto. Qed.

Lemma ret_inv {A} (a : A) f r f' : ret a f = (inr r, f') -> r = a /\ f' = f.
Proof. unfold ret. intros [= -> ->]. auto. Qed.

Lemma f_tell_inv f r f' :
  f_tell f = (inr r, f') -> r = Z.of_nat (pos f) /\ f' = f.
Proof. unfold f_tell. intros [= <- <-]. auto. Qed.

Lemma f_write_eof b bs : f_write bs (at_eof b) = (inr tt, at_eof (b ++ bs)).
Proof.
  unfold f_write, at_eof. destruct bs as [|c bs]; cbn [buf pos].
  - now rewrite app_nil_r.
  - rewrite firstn_all, Nat.sub_diag, skipn_all2 by lia. cbn [repeat app].
    rewrite app_nil_r. f_equal. f_equal. now rewrite !length_app.
Qed.

Lemma f_write_inv b bs u f' :
  f_write bs (at_eof b) = (inr u, f') -> f' = at_eof (b ++ bs).
Proof. rewrite f_write_eof. now intros [= <-]. Qed.

Lemma f_write_over pre old post bs :
  length old = length bs ->
  f_write bs (mkfile (pre ++ old ++ post) (length pre))
    = (inr tt, mkfile (pre ++ bs ++ post) (length (pre ++ bs))).
Proof.
  intros Hlen. unfold f_write. destruct bs as [|c bs]; cbn [buf pos].
  - destruct old; [|discriminate]. now rewrite app_nil_r.
  - rewrite firstn_app, firstn_all, Nat.sub_diag, firstn_O, app_nil_r.
    replace (length pre - length (pre ++ old ++ post))%nat with 0%nat
      by (rewrite length_app; lia).
    rewrite skipn_app, skipn_all2 by lia.
    replace (length pre + length (c :: bs) - length pre)%nat with (length old) by lia.
    rewrite skipn_app, skipn_all, Nat.sub_diag. cbn [repeat app skipn].
    now rewrite length_app.
Qed.

Lemma f_write_over_inv pre old post bs u f' :
  length old = length bs ->
  f_write bs (mkfile (pre ++ old ++ post) (length pre)) = (inr u, f') ->
  f' = mkfile (pre ++ bs ++ post) (length (pre ++ bs)).
Proof. intros Hlen. rewrite f_write_over by assumption. now intros [= <-]. Qed.

Lemma f_seek_inv p f u f' :
  f_seek p f = (inr u, f') -> 0 <= p /\ f' = mkfile (buf f) (Z.to_nat p).
Proof.
  unfold f_seek. destruct (Z.ltb_spec p 0); [discriminate|].
  intros [= <-]. auto.
Qed.

Lemma write_Q_over_inv v pre old post u f' :
  length old = 8%nat ->
  write_Q v (mkfile (pre ++ old ++ post) (length pre)) = (inr u, f') ->
  0 <= v < 2 ^ 64 /\ f' = mkfile (pre ++ le_bytes 8 v ++ post) (length (pre ++ le_bytes 8 v)).
Proof.
  intros Hlen H. apply bind_inv in H as (bs & f1 & H1 & H2).
  apply lift_inv in H1 as [H1 ->]. apply struct_pack_Q_inv in H1 as [Hv ->].
  apply f_write_over_inv in H2; [auto|now rewrite le_bytes_length].
Qed.

Lemma write_I_inv v b u f' :
  write_I v (at_eof b) = (inr u, f') ->
  0 <= v < 2 ^ 32 /\ f' = at_eof (b ++ le_bytes 4 v).
Proof.
  intros H. apply bind_inv in H as (bs & f1 & H1 & H2).
  apply lift_inv in H1 as [H1 ->]. apply struct_pack_I_inv in H1 as [Hv ->].
  apply f_write_inv in H2. auto.
Qed.

Lemma write_Q_inv v b u f' :
  write_Q v (at_eof b) = (inr u, f') ->
  0 <= v < 2 ^ 64 /\ f' = at_eof (b ++ le_bytes 8 v).
Proof.
  intros H. apply bind_inv in H as (bs & f1 & H1 & H2).
  apply lift_inv in H1 as [H1 ->]. apply struct_pack_Q_inv in H1 as [Hv ->].
  apply f_write_inv in H2. auto.
Qed.

Lemma write_I_opt_inv o b u f' :
  write_I_opt o (at_eof b) = (inr u, f') ->
  exists v, o = Some v /\ 0 <= v < 2 ^ 32 /\ f' = at_eof (b ++ le_bytes 4 v).
Proof.
  intros H. apply bind_inv in H as (bs & f1 & H1 & H2).
  apply lift_inv in H1 as [H1 ->]. destruct o as [v|]; [|discriminate].
  apply struct_pack_I_inv in H1 as [Hv ->].
  apply f_write_inv in H2. eauto.
Qed.

Lemma write_Q_opt_inv o b u f' :
  write_Q_opt o (at_eof b) = (inr u, f') ->
  exists v, o = Some v /\ 0 <= v < 2 ^ 64 /\ f' = at_eof (b ++ le_bytes 8 v).
Proof.
  intros H. apply bind_inv in H as (bs & f1 & H1 & H2).
  apply lift_inv in H1 as [H1 ->]. destruct o as [v|]; [|discriminate].
  apply struct_pack_Q_inv in H1 as [Hv ->].
  apply f_write_inv in H2. eauto.
Qed.

(** A loop whose body, when it does not raise, appends [out x] and
    establishes [ok x], appends the outputs in order. *)
Lemma for_each_inv {A} (body : A -> M unit) (out : A -> list byte) (ok : A -> Prop) :
  (forall x b u f', body x (at_eof b) = (inr u, f') ->
                    ok x /\ f' = at_eof (b ++ out x)) ->
  forall xs b u f', for_each xs body (at_eof b) = (inr u, f') ->
    Forall ok xs /\ f' = at_eof (b ++ concat (map out xs)).
Proof.
  intros Hbody. induction xs as [|x xs IH]; intros b u f' H.
  - apply ret_inv in H as [_ ->]. simpl. now rewrite app_nil_r.
  - cbn [for_each] in H. apply bind_inv in H as (u1 & f1 & H1 & H2).
    apply Hbody in H1 as [Hx ->]. apply IH in H2 as [Hxs ->].
    split; [now constructor|]. simpl. now rewrite app_assoc.
Qed.
(** ** The accumulation stage *)

Lemma grid_map {A B C D} (f : C -> D) (g : A -> B -> C) xs ys :
  map f (grid g xs ys) = grid (fun y x => f (g y x)) xs ys.
Proof.
  unfold grid. induction ys as [|y ys IH]; simpl; auto.
  now rewrite map_app, map_map, IH.
Qed.

Lemma grid_ext_in {A B C} (g g' : A -> B -> C) xs ys :
  (forall y x, In y ys -> In x xs -> g y x = g' y x) ->
  grid g xs ys = grid g' xs ys.
Proof.
  intros Hext. unfold grid. induction ys as [|y ys IH]; simpl; auto.
  f_equal.
  - apply map_ext_in. intros x Hx. apply Hext; simpl; auto.
  - apply IH. intros y' x Hy Hx. apply Hext; simpl; auto.
Qed.

Lemma fold_result_app {A S} (body : S -> A -> result S) xs ys st :
  fold_result body (xs ++ ys) st =
    match fold_result body xs st with
    | inl e => inl e
    | inr st' => fold_result body ys st'
    end.
Proof.
  revert st. induction xs as [|x xs IH]; intros st; simpl; auto.
  destruct (body st x); auto.
Qed.

Section Accumulate.
Context {pil : PIL}.

Lemma to_rgba_sized W H img : sized W H img -> sized W H (to_rgba img).
Proof.
  unfold sized, to_rgba. destruct (String.eqb (mode img) "RGBA"); auto.
  destruct (convert_size img "RGBA") as [-> ->]. auto.
Qed.

Lemma fold_left_pack_tile s z base tiles ies blobs :
  fold_left (pack_tile s z base) tiles (ies, blobs) =
    (ies ++ map (tile_entry s z base) tiles, blobs ++ map (tile_blob base) tiles).
Proof.
  revert ies blobs. induction tiles as [|[[tx ty] b] tiles IH]; intros ies blobs.
  - simpl. now rewrite !app_nil_r.
  - cbn [fold_left map]. unfold pack_tile at 2. unfold encode_png_bytes.
    rewrite IH, <- !app_assoc. reflexivity.
Qed.

Lemma tile_records_parallel s z base tiles :
  parallel (map (tile_entry s z base) tiles) (map (tile_blob base) tiles).
Proof. induction tiles; simpl; constructor; auto. Qed.

Lemma tile_entry_shape s z base t tx ty :
  0 < t -> 0 <= tx < py_ceil_div (width base) t ->
  0 <= ty < py_ceil_div (height base) t ->
  e_shape (tile_entry s z base (tile_of base t tx ty))
    = tile_shape t s z (width base) (height base) ty tx.
Proof.
  intros Ht Hx Hy.
  pose proof (ceil_cell_lt (width base) t tx Ht (proj2 Hx)) as Hcx.
  pose proof (ceil_cell_lt (height base) t ty Ht (proj2 Hy)) as Hcy.
  unfold e_shape, tile_entry, tile_shape, tile_of, tile_box. cbn [fst snd e_lod e_z e_tx e_ty e_w e_h].
  assert (0 <= tx * t) by (apply Z.mul_nonneg_nonneg; lia).
  assert (0 <= ty * t) by (apply Z.mul_nonneg_nonneg; lia).
  destruct (crop_size base (tx * t) (ty * t) (Z.min (tx * t + t) (width base))
              (Z.min (ty * t + t) (height base))) as [Hw Hh]; [lia|lia|lia|lia|].
  destruct (to_rgba_sized _ _ _ (conj Hw Hh)) as [-> ->]. reflexivity.
Qed.

Lemma pack_layer_inv s t z base ies blobs st' :
  0 < t < 2 ^ 32 ->
  pack_layer s t (ies, blobs) (z, base) = inr st' ->
  exists E B, st' = (ies ++ E, blobs ++ B) /\ parallel E B /\
    map e_shape E = layer_shapes t s z (width base) (height base).
Proof.
  intros Ht. unfold pack_layer. rewrite iter_tiles_grid_u32 by assumption.
  rewrite fold_left_pack_tile. intros [= <-].
  do 2 eexists. split; [reflexivity|]. split; [apply tile_records_parallel|].
  rewrite !grid_map. unfold layer_shapes. apply grid_ext_in.
  intros ty tx Hy Hx. apply py_range_In in Hx, Hy.
  now apply tile_entry_shape; [lia| |].
Qed.

Lemma parallel_app E1 B1 E2 B2 :
  parallel E1 B1 -> parallel E2 B2 -> parallel (E1 ++ E2) (B1 ++ B2).
Proof. apply Forall2_app. Qed.

Lemma fold_pack_layer_inv s t Ws Hs zbs : 0 < t < 2 ^ 32 ->
  Forall (fun zb => sized Ws Hs (snd zb)) zbs ->
  forall ies blobs st',
  fold_result (pack_layer s t) zbs (ies, blobs) = inr st' ->
  exists E B, st' = (ies ++ E, blobs ++ B) /\ parallel E B /\
    map e_shape E = flat_map (fun zb => layer_shapes t s (fst zb) Ws Hs) zbs.
Proof.
  intros Ht. induction 1 as [|[z base] zbs [HW HH] Hall IH]; intros ies blobs st' Hrun.
  - injection Hrun as <-. exists [], []. rewrite !app_nil_r.
    repeat split. constructor.
  - cbn [fold_result] in Hrun.
    destruct (pack_layer s t (ies, blobs) (z, base)) as [e|st1] eqn:H1; [discriminate|].
    apply pack_layer_inv in H1 as (E1 & B1 & -> & Hp1 & Hs1); [|assumption].
    apply IH in Hrun as (E2 & B2 & -> & Hp2 & Hs2).
    exists (E1 ++ E2), (B1 ++ B2). rewrite !app_assoc.
    split; [reflexivity|]. split; [now apply parallel_app|].
    cbn [flat_map fst snd] in *. simpl in HW, HH.
    now rewrite map_app, Hs1, Hs2, HW, HH.
Qed.

Lemma build_downsampled_sized W H img s base :
  sized W H img -> s <> 1 -> build_downsampled img s = inr base ->
  sized (W / s) (H / s) base.
Proof.
  intros [HW HH] Hs. unfold build_downsampled.
  destruct (Z.eqb_spec s 1); [contradiction|].
  destruct (Z.eqb_spec s 0); [discriminate|].
  intros Hr. apply resize_size in Hr. now rewrite HW, HH in Hr.
Qed.

Lemma downsample_layers_inv W H imgs s zs :
  Forall (sized W H) imgs ->
  forall acc layers,
  Forall (sized (fst (lod_size W H s)) (snd (lod_size W H s))) acc ->
  fold_result (downsample_layer imgs s) zs acc = inr layers ->
  Forall (sized (fst (lod_size W H s)) (snd (lod_size W H s))) layers /\
  length layers = (length acc + length zs)%nat.
Proof.
  intros Himgs. induction zs as [|z zs IH]; intros acc layers Hacc Hrun.
  - injection Hrun as <-. split; [assumption|simpl; lia].
  - cbn [fold_result] in Hrun.
    destruct (downsample_layer imgs s acc z) as [e|acc'] eqn:Hz; [discriminate|].
    assert (Hacc' : Forall (sized (fst (lod_size W H s)) (snd (lod_size W H s))) acc'
                    /\ length acc' = S (length acc)).
    { unfold downsample_layer in Hz.
      destruct (nth_error imgs (Z.to_nat z)) as [img|] eqn:Hnth; [|discriminate].
      assert (Himg : sized W H img).
      { eapply Forall_forall; [exact Himgs|]. eapply nth_error_In; eassumption. }
      unfold lod_size in *.
      destruct (Z.eqb_spec s 1) as [->|Hs1].
      - injection Hz as <-. rewrite length_app. simpl. split; [|lia].
        apply Forall_app. split; [assumption|]. now constructor.
      - destruct (build_downsampled img s) as [e|base] eqn:Hb; [discriminate|].
        injection Hz as <-. rewrite length_app. simpl. split; [|lia].
        apply Forall_app. split; [assumption|]. constructor; [|constructor].
        eapply build_downsampled_sized; eassumption. }
    destruct Hacc' as [Hacc' Hlen].
    apply IH in Hrun as [Hl Hn]; [|assumption].
    split; [assumption|]. simpl. lia.
Qed.

Lemma flat_map_enumerate {A B} (f : Z -> list B) (xs : list A) :
  flat_map (fun zb => f (fst zb)) (enumerate xs)
    = flat_map f (py_range (Z.of_nat (length xs))).
Proof.
  unfold enumerate.
  assert (Hlen : length (py_range (Z.of_nat (length xs))) = length xs)
    by (rewrite py_range_length; lia).
  revert Hlen. generalize (py_range (Z.of_nat (length xs))) as ks.
  induction xs as [|x xs IH]; intros [|k ks] Hlen; try discriminate; simpl; auto.
  f_equal. apply IH. simpl in Hlen. lia.
Qed.

Lemma enumerate_snd {A} (P : A -> Prop) (xs : list A) :
  Forall P xs -> Forall (fun zb => P (snd zb)) (enumerate xs).
Proof.
  unfold enumerate. intros Hall. generalize (py_range (Z.of_nat (length xs))) as ks.
  induction Hall as [|x xs Hx Hxs IH]; intros [|k ks]; simpl; constructor; auto.
Qed.

Lemma pack_lod_inv W H imgs t s ies blobs st' : 0 < t < 2 ^ 32 ->
  Forall (sized W H) imgs ->
  pack_lod imgs t (ies, blobs) s = inr st' ->
  exists E B, st' = (ies ++ E, blobs ++ B) /\ parallel E B /\
    map e_shape E = lod_shapes W H t s.
Proof.
  intros Ht Himgs. unfold pack_lod.
  destruct (fold_result (downsample_layer imgs s) (py_range NUM_LAYERS) [])
    as [e|layers] eqn:Hd; [discriminate|].
  apply (downsample_layers_inv W H) in Hd as [Hsz Hlen]; [|assumption|constructor].
  intros Hrun.
  eapply fold_pack_layer_inv in Hrun as (E & B & -> & Hp & Hs);
    [|assumption|apply enumerate_snd; eassumption].
  exists E, B. split; [reflexivity|]. split; [assumption|].
  rewrite Hs, (flat_map_enumerate (fun z => layer_shapes t s z _ _)).
  unfold lod_shapes. now rewrite Hlen.
Qed.

Lemma fold_pack_lod_inv W H imgs t lods : 0 < t < 2 ^ 32 ->
  Forall (sized W H) imgs ->
  forall ies blobs st',
  fold_result (pack_lod imgs t) lods (ies, blobs) = inr st' ->
  exists E B, st' = (ies ++ E, blobs ++ B) /\ parallel E B /\
    map e_shape E = production_order W H t lods.
Proof.
  intros Ht Himgs. induction lods as [|s lods IH]; intros ies blobs st' Hrun.
  - injection Hrun as <-. exists [], []. rewrite !app_nil_r.
    repeat split. constructor.
  - cbn [fold_result] in Hrun.
    destruct (pack_lod imgs t (ies, blobs) s) as [e|st1] eqn:H1; [discriminate|].
    eapply pack_lod_inv in H1 as (E1 & B1 & -> & Hp1 & Hs1); [|assumption|eassumption].
    apply IH in Hrun as (E2 & B2 & -> & Hp2 & Hs2).
    exists (E1 ++ E2), (B1 ++ B2). rewrite !app_assoc.
    split; [reflexivity|]. split; [now apply parallel_app|].
    unfold production_order in *. cbn [flat_map]. now rewrite map_app, Hs1, Hs2.
Qed.

End Accumulate.
(** ** The offset pass *)

Lemma parallel_total es bs :
  parallel es bs -> total_length es = Z.of_nat (length (concat bs)).
Proof.
  unfold total_length.
  induction 1 as [|e b es bs [He _] _ IH]; simpl; auto.
  rewrite length_app, Nat2Z.inj_add. lia.
Qed.

Lemma parallel_length es bs : parallel es bs -> length es = length bs.
Proof. apply Forall2_length. Qed.

Lemma resolve_offsets_inv es :
  forall i c blobs R,
  parallel es (skipn i blobs) ->
  resolve_offsets i c es blobs = inr R ->
  contiguous_from c R /\ map e_shape R = map e_shape es /\
  map e_length R = map e_length es.
Proof.
  induction es as [|e es IH]; intros i c blobs R Hpar Hrun.
  - injection Hrun as <-. simpl. auto.
  - cbn [resolve_offsets] in Hrun.
    destruct (skipn i blobs) as [|b rest] eqn:Hskip; inversion Hpar as [|? ? ? ? [Hlen _] Hrest]; subst.
    assert (Hnth : nth_error blobs i = Some b).
    { rewrite <- hd_error_skipn, Hskip. reflexivity. }
    assert (Hrest' : skipn (S i) blobs = rest).
    { change (S i) with (1 + i)%nat. now rewrite <- skipn_skipn, Hskip. }
    rewrite Hnth in Hrun.
    destruct (resolve_offsets (S i) (c + Z.of_nat (length b)) es blobs) as [ex|R'] eqn:Hr;
      [discriminate|].
    injection Hrun as <-.
    apply IH in Hr as (Hc & Hs & Hl); [|now rewrite Hrest'].
    cbn [contiguous_from map]. unfold set_rel_off at 1 2. cbn [e_rel_off e_length].
    rewrite Hlen. repeat split; auto; f_equal; auto.
Qed.

Lemma total_length_map es es' :
  map e_length es = map e_length es' -> total_length es = total_length es'.
Proof.
  revert es'. induction es as [|e es IH]; intros [|e' es'] H; try discriminate; auto.
  injection H as He Hes. simpl. rewrite He. f_equal. now apply IH.
Qed.

Lemma contiguous_first c es e :
  contiguous_from c es -> nth_error es 0 = Some e -> e_rel_off e = Some c.
Proof. destruct es; simpl; [discriminate|]. intros [H _] [= <-]. exact H. Qed.

Lemma contiguous_step es :
  forall c k e e', contiguous_from c es ->
  nth_error es k = Some e -> nth_error es (S k) = Some e' ->
  exists r, e_rel_off e = Some r /\ e_rel_off e' = Some (r + e_length e).
Proof.
  induction es as [|e0 es IH]; intros c k e e' Hc Hk Hk'; [now destruct k|].
  destruct Hc as [H0 Hc]. destruct k as [|k].
  - injection Hk as <-. simpl in Hk'. exists c. split; [assumption|].
    eapply contiguous_first; eassumption.
  - simpl in Hk, Hk'. eapply IH; eassumption.
Qed.

Lemma contiguous_last es :
  forall c e, contiguous_from c es ->
  nth_error es (Nat.pred (length es)) = Some e ->
  exists r, e_rel_off e = Some r /\ r + e_length e = c + total_length es.
Proof.
  induction es as [|e0 es IH]; intros c e Hc Hl; [discriminate|].
  destruct Hc as [H0 Hc]. destruct es as [|e1 es].
  - injection Hl as <-. exists c. simpl. split; [assumption|lia].
  - cbn [length Nat.pred nth_error] in Hl.
    destruct (IH _ e Hc Hl) as (r & Hr & Hsum).
    exists r. split; [assumption|].
    change (total_length (e0 :: e1 :: es)) with (e_length e0 + total_length (e1 :: es)).
    lia.
Qed.

Lemma entry_layout_length e : length (entry_layout e) = 36%nat.
Proof. unfold entry_layout. now rewrite !length_app, !le_bytes_length. Qed.

Lemma index_layout_length es :
  length (concat (map entry_layout es)) = (36 * length es)%nat.
Proof.
  induction es as [|e es IH]; [reflexivity|]. cbn [map concat].
  rewrite length_app, entry_layout_length, IH. cbn [length]. lia.
Qed.

Lemma write_entry_inv e b u f' :
  write_entry e (at_eof b) = (inr u, f') ->
  (0 <= e_length e < 2 ^ 32 /\ exists r, e_rel_off e = Some r /\ 0 <= r < 2 ^ 64) /\
  f' = at_eof (b ++ entry_layout e).
Proof.
  unfold write_entry. intros H.
  apply bind_inv in H as (? & ? & H1 & H); apply write_I_inv in H1 as [_ ->].
  apply bind_inv in H as (? & ? & H1 & H); apply write_I_inv in H1 as [_ ->].
  apply bind_inv in H as (? & ? & H1 & H); apply write_I_inv in H1 as [_ ->].
  apply bind_inv in H as (? & ? & H1 & H); apply write_I_inv in H1 as [_ ->].
  apply bind_inv in H as (? & ? & H1 & H); apply write_I_inv in H1 as [_ ->].
  apply bind_inv in H as (? & ? & H1 & H); apply write_I_inv in H1 as [_ ->].
  apply bind_inv in H as (? & ? & H1 & H); apply write_Q_opt_inv in H1 as (r & Hr & Hb & ->).
  apply write_I_inv in H as [Hlen ->].
  split; [split; [assumption|eauto]|].
  unfold entry_layout. rewrite Hr, <- !app_assoc. reflexivity.
Qed.

Lemma write_entry_ok e b u f' :
  write_entry e (at_eof b) = (inr u, f') ->
  entry_ok e /\ f' = at_eof (b ++ entry_layout e).
Proof.
  unfold write_entry. intros H.
  apply bind_inv in H as (? & ? & H1 & H); apply write_I_inv in H1 as [B1 ->].
  apply bind_inv in H as (? & ? & H1 & H); apply write_I_inv in H1 as [B2 ->].
  apply bind_inv in H as (? & ? & H1 & H); apply write_I_inv in H1 as [B3 ->].
  apply bind_inv in H as (? & ? & H1 & H); apply write_I_inv in H1 as [B4 ->].
  apply bind_inv in H as (? & ? & H1 & H); apply write_I_inv in H1 as [B5 ->].
  apply bind_inv in H as (? & ? & H1 & H); apply write_I_inv in H1 as [B6 ->].
  apply bind_inv in H as (? & ? & H1 & H); apply write_Q_opt_inv in H1 as (r & Hr & Hb & ->).
  apply write_I_inv in H as [Hlen ->].
  split.
  - unfold entry_ok. do 6 (split; [assumption|]). split; [eauto|assumption].
  - unfold entry_layout. rewrite Hr, <- !app_assoc. reflexivity.
Qed.

Lemma parallel_resolved E B R :
  parallel E B -> map e_length R = map e_length E ->
  Forall2 (fun e b => e_length e = Z.of_nat (length b)) R B.
Proof.
  intros Hpar. revert R. induction Hpar as [|e b E B [He _] _ IH]; intros [|r R] Hmap;
    try discriminate; constructor.
  - injection Hmap as Hr _. congruence.
  - apply IH. now injection Hmap.
Qed.

(** ** Reading the layers *)

Section Load.
Context {pil : PIL}.

Lemma load_layer_first p img :
  Image_open p = inr img ->
  load_layer ([], None) p
    = inr ([to_rgba img], Some (width (to_rgba img), height (to_rgba img))).
Proof. intros Hopen. unfold load_layer. now rewrite Hopen. Qed.

Lemma load_layer_next acc W H p img :
  Image_open p = inr img ->
  load_layer (acc, Some (W, H)) p
    = if negb (width (to_rgba img) =? W) || negb (height (to_rgba img) =? H)
      then inl (ValueError_layer_size W H p (width (to_rgba img)) (height (to_rgba img)))
      else inr (acc ++ [to_rgba img], Some (W, H)).
Proof. intros Hopen. unfold load_layer. now rewrite Hopen. Qed.

Lemma load_layers_fold_inv paths :
  forall imgs size imgs' size',
  fold_result load_layer paths (imgs, size) = inr (imgs', size') ->
  (forall W H, size = Some (W, H) -> Forall (sized W H) imgs) ->
  (size = None -> imgs = []) ->
  (forall W H, size' = Some (W, H) -> Forall (sized W H) imgs') /\
  (size' = None -> paths = [] /\ size = None) /\
  length imgs' = (length imgs + length paths)%nat.
Proof.
  induction paths as [|p paths IH]; intros imgs size imgs' size' Hrun Hsz Hnone.
  - injection Hrun as <- <-. repeat split; auto.
  - cbn [fold_result] in Hrun.
    destruct (load_layer (imgs, size) p) as [e|[imgs1 size1]] eqn:H1; [discriminate|].
    unfold load_layer in H1.
    destruct (Image_open p) as [e|img]; [discriminate|].
    assert (Hstep : (forall W H, size1 = Some (W, H) -> Forall (sized W H) imgs1) /\
                    size1 <> None /\ length imgs1 = S (length imgs)).
    { destruct size as [[w h]|].
      - destruct (Z.eqb_spec (width (to_rgba img)) w), (Z.eqb_spec (height (to_rgba img)) h);
          try discriminate.
        injection H1 as <- <-. rewrite length_app. simpl.
        repeat split; [|discriminate|lia].
        intros W H [= <- <-]. apply Forall_app. split; [now apply Hsz|].
        constructor; [split; assumption|constructor].
      - injection H1 as <- <-. rewrite Hnone by reflexivity. simpl.
        repeat split; [|discriminate].
        intros W H [= <- <-]. constructor; [split; reflexivity|constructor]. }
    destruct Hstep as (Hsz1 & Hsome & Hlen1).
    apply IH in Hrun as (Hsz' & Hnone' & Hlen'); [|assumption|congruence].
    split; [assumption|]. split; [|simpl; lia].
    intros Hn. destruct (Hnone' Hn) as [_ Hn1]. contradiction.
Qed.

End Load.
(** ** The body of the [with] block *)

Section Body.
Context {pil : PIL}.

Ltac step_I H Hb :=
  let H1 := fresh "H" in
  apply bind_inv in H as (? & ? & H1 & H); apply write_I_inv in H1 as [Hb ->].

Lemma header_layout_length W H t lods io do :
  length (header_layout W H t lods io do) = (56 + 4 * length lods)%nat.
Proof.
  unfold header_layout, header_fixed, header_grid.
  rewrite !length_app, !le_bytes_length.
  assert (Hl : length (concat (map (le_bytes 4) lods)) = (4 * length lods)%nat).
  { induction lods as [|v lods IH]; [reflexivity|]. cbn [map concat].
    rewrite length_app, le_bytes_length, IH. cbn [length]. lia. }
  rewrite Hl. change (length MAGIC) with 8%nat. lia.
Qed.

Lemma pack_body_inv imgs W H t lods s f :
  pack_body imgs (Some (W, H)) t lods empty_file = (inr s, f) ->
  exists ies blobs,
    fold_result (pack_lod imgs t) lods ([], []) = inr (ies, blobs) /\
    resolve_offsets 0 0 ies blobs = inr (s_index_entries s) /\
    s_tile_data_blobs s = blobs /\ s_width s = W /\ s_height s = H /\
    0 < t < 2 ^ 32 /\
    Forall (fun v => 0 <= v < 2 ^ 32) lods /\
    Z.of_nat (length lods) < 2 ^ 32 /\
    0 <= py_ceil_div W t < 2 ^ 32 /\ 0 <= py_ceil_div H t < 2 ^ 32 /\
    s_header_end s = Z.of_nat (length (header_layout W H t lods 0 0)) /\
    s_index_offset s = s_header_end s /\
    s_data_offset s = s_index_offset s + Z.of_nat (length ies) * 36 /\
    0 <= s_index_offset s < 2 ^ 64 /\ 0 <= s_data_offset s < 2 ^ 64 /\
    (0 <= W < 2 ^ 32 /\ 0 <= H < 2 ^ 32) /\
    Forall entry_ok (s_index_entries s) /\
    buf f = header_layout W H t lods (s_index_offset s) (s_data_offset s)
              ++ concat (map entry_layout (s_index_entries s))
              ++ concat blobs.
Proof.
  unfold pack_body. change empty_file with (at_eof []). intros Hrun.
  apply bind_inv in Hrun as (? & ? & H1 & Hrun). apply f_write_inv in H1 as ->.
  step_I Hrun HbV.
  apply bind_inv in Hrun as (? & ? & H1 & Hrun).
  apply write_I_opt_inv in H1 as (w & [= <-] & HbW & ->).
  apply bind_inv in Hrun as (? & ? & H1 & Hrun).
  apply write_I_opt_inv in H1 as (h & [= <-] & HbH & ->).
  step_I Hrun Hbt. step_I Hrun Hbn.
  apply bind_inv in Hrun as (? & ? & H1 & Hrun).
  apply (for_each_inv write_I (le_bytes 4) (fun v => 0 <= v < 2 ^ 32)) in H1 as [Hlods ->];
    [|intros v b u f' Hv; eapply write_I_inv; eassumption].
  cbv beta iota in Hrun.
  apply bind_inv in Hrun as (txf & ? & H1 & Hrun). apply lift_inv in H1 as [H1 ->].
  apply ceil_truediv_u32_inv in H1 as [Ht0 ->]; [|assumption|assumption].
  apply bind_inv in Hrun as (tyf & ? & H1 & Hrun). apply lift_inv in H1 as [H1 ->].
  apply ceil_truediv_u32_inv in H1 as [_ ->]; [|assumption|assumption].
  step_I Hrun Hbx. step_I Hrun Hby. step_I Hrun HbL.
  apply bind_inv in Hrun as (? & ? & H1 & Hrun). apply write_Q_inv in H1 as [_ ->].
  apply bind_inv in Hrun as (? & ? & H1 & Hrun). apply write_Q_inv in H1 as [_ ->].
  apply bind_inv in Hrun as (header_end & ? & H1 & Hrun).
  apply f_tell_inv in H1 as [-> ->].
  apply bind_inv in Hrun as ([ies blobs] & ? & H1 & Hrun).
  apply lift_inv in H1 as [Hacc ->].
  apply bind_inv in Hrun as (index_offset & ? & H1 & Hrun).
  apply f_tell_inv in H1 as [-> ->].
  apply bind_inv in Hrun as (entries & ? & H1 & Hrun).
  apply lift_inv in H1 as [Hres ->].
  apply bind_inv in Hrun as (? & ? & H1 & Hrun).
  apply (for_each_inv write_entry entry_layout entry_ok) in H1 as [Hok ->];
    [|intros e b u f' He; now apply write_entry_ok in He].
  apply bind_inv in Hrun as (here & ? & H1 & Hrun).
  apply f_tell_inv in H1 as [-> ->].
  apply bind_inv in Hrun as (? & ? & H1 & Hrun).
  match type of H1 with
  | (if ?c then _ else _) _ = _ => destruct c eqn:Hassert; [|discriminate]
  end.
  apply ret_inv in H1 as [_ ->].
  apply bind_inv in Hrun as (? & ? & H1 & Hrun).
  apply (for_each_inv f_write (fun b => b) (fun _ => True)) in H1 as [_ ->];
    [|intros bl b u f' Hw; apply f_write_inv in Hw as ->; auto].
  rewrite map_id in Hrun.
  apply bind_inv in Hrun as (? & ? & H1 & Hrun).
  apply f_seek_inv in H1 as [Hseek ->]. cbn [pos buf at_eof] in Hrun, Hseek, Hassert.
  set (pre := ((((((((([] ++ MAGIC) ++ le_bytes 4 VERSION) ++ le_bytes 4 W) ++ le_bytes 4 H)
                   ++ le_bytes 4 t) ++ le_bytes 4 (Z.of_nat (length lods)))
                   ++ concat (map (le_bytes 4) lods)) ++ le_bytes 4 (py_ceil_div W t))
                   ++ le_bytes 4 (py_ceil_div H t)) ++ le_bytes 4 NUM_LAYERS) in *.
  assert (Hpre : pre = header_fixed W H t (Z.of_nat (length lods))
                         ++ concat (map (le_bytes 4) lods) ++ header_grid W H t).
  { unfold pre, header_fixed, header_grid. rewrite <- !app_assoc. reflexivity. }
  assert (Hhdr : (pre ++ le_bytes 8 0) ++ le_bytes 8 0 = header_layout W H t lods 0 0).
  { unfold header_layout. rewrite <- Hpre, <- app_assoc. reflexivity. }
  pose proof (header_layout_length W H t lods 0 0) as Hlen.
  assert (Hprelen : length pre = (40 + 4 * length lods)%nat).
  { rewrite <- Hhdr in Hlen. rewrite !length_app, !le_bytes_length in Hlen. lia. }
  clearbody pre.
  assert (Hpos : Z.to_nat (Z.of_nat (length ((pre ++ le_bytes 8 0) ++ le_bytes 8 0)) - 16)
                 = length pre).
  { rewrite !length_app, !le_bytes_length. lia. }
  rewrite Hpos in Hrun.
  replace ((((pre ++ le_bytes 8 0) ++ le_bytes 8 0) ++ concat (map entry_layout entries))
             ++ concat blobs)
    with (pre ++ le_bytes 8 0
              ++ (le_bytes 8 0 ++ concat (map entry_layout entries) ++ concat blobs))
    in Hrun by (rewrite <- !app_assoc; reflexivity).
  apply bind_inv in Hrun as (? & ? & H1 & Hrun).
  apply write_Q_over_inv in H1 as [Hbio ->]; [|apply le_bytes_length].
  rewrite (app_assoc pre) in Hrun.
  apply bind_inv in Hrun as (? & ? & H1 & Hrun).
  apply write_Q_over_inv in H1 as [Hbdo ->]; [|apply le_bytes_length].
  apply ret_inv in Hrun as [-> ->].
  cbn [s_index_entries s_tile_data_blobs s_width s_height s_header_end
         s_index_offset s_data_offset buf].
  apply Z.eqb_eq in Hassert.
  rewrite Hhdr in *.
  exists ies, blobs.
  repeat (split; [first [assumption | reflexivity | lia]|]).
  unfold header_layout. rewrite <- Hpre, <- !app_assoc. reflexivity.
Qed.

End Body.
(** ** A run that returns *)

Section Packed.
Context {pil : PIL}.

Lemma pack_lod_zero imgs t st img :
  hd_error imgs = Some img -> pack_lod imgs t st 0 = inl ZeroDivisionError.
Proof.
  intros Hhd. destruct imgs as [|i imgs]; [discriminate|]. injection Hhd as ->.
  reflexivity.
Qed.

Lemma fold_pack_lod_nonzero imgs t img lods :
  hd_error imgs = Some img ->
  forall st st', fold_result (pack_lod imgs t) lods st = inr st' -> ~ In 0 lods.
Proof.
  intros Hhd. induction lods as [|v lods IH]; intros st st' Hrun; [now intros []|].
  cbn [fold_result] in Hrun.
  destruct (pack_lod imgs t st v) as [e|st1] eqn:H1; [discriminate|].
  intros [->|Hin].
  - rewrite (pack_lod_zero _ _ _ _ Hhd) in H1. discriminate.
  - exact (IH _ _ Hrun Hin).
Qed.

Lemma pack_atlas_3d_inv_full paths t lods s file :
  pack_atlas_3d paths t lods = (inr s, file) ->
  exists bytes, file = Some bytes /\ packed paths t lods s bytes /\
    length paths = 4%nat /\
    (0 <= s_width s < 2 ^ 32 /\ 0 <= s_height s < 2 ^ 32) /\
    Forall entry_ok (s_index_entries s) /\
    Forall2 (fun e b => e_length e = Z.of_nat (length b))
            (s_index_entries s) (s_tile_data_blobs s) /\
    ~ In 0 lods.
Proof.
  unfold pack_atlas_3d.
  destruct (Z.eqb_spec (Z.of_nat (length paths)) NUM_LAYERS) as [Hlen|]; [|discriminate].
  cbn [negb].
  destruct (load_layers paths) as [e|[imgs size]] eqn:Hload; [discriminate|].
  pose proof Hload as Hinv.
  apply load_layers_fold_inv in Hinv as (Hsz & Hnone & Himgs); [|discriminate|reflexivity].
  destruct size as [[W H]|];
    [|destruct (Hnone eq_refl) as [-> _]; discriminate].
  specialize (Hsz W H eq_refl).
  destruct (pack_body imgs (Some (W, H)) t lods empty_file) as [r f] eqn:Hbody.
  intros [= -> <-]. exists (buf f). split; [reflexivity|].
  apply pack_body_inv in Hbody
    as (ies & blobs & Hacc & Hres & Hblobs & HW & HH & Ht & Hlods & Hnl & Hx & Hy
        & Hhe & Hio & Hdo & Hbio & Hbdo & HbWH & Hok & Hbuf).
  pose proof Hacc as Hnz.
  apply (fold_pack_lod_inv W H) in Hacc as (E & B & [= -> ->] & Hpar & Hshape);
    [|lia|assumption].
  cbn [app] in *.
  apply resolve_offsets_inv in Hres as (Hcont & Hs & Hl); [|exact Hpar].
  assert (Hn : length (s_index_entries s) = length E).
  { rewrite <- (length_map e_shape), Hs. apply length_map. }
  rewrite header_layout_length in Hhe.
  rewrite HW, HH, Hblobs.
  split; [|split; [unfold NUM_LAYERS in Hlen; lia|split; [assumption|split; [assumption|
    split; [exact (parallel_resolved _ _ _ Hpar Hl)|]]]]].
  - unfold packed. cbv zeta. rewrite HW, HH, Hblobs.
    split; [eauto|]. do 5 (split; [assumption|]).
    split; [congruence|]. split; [assumption|].
    split; [rewrite (total_length_map _ E Hl); now apply parallel_total|].
    split; [assumption|]. split; [assumption|]. split; [lia|].
    split; assumption.
  - destruct imgs as [|img imgs]; [simpl in Himgs; unfold NUM_LAYERS in Hlen; lia|].
    exact (fold_pack_lod_nonzero (img :: imgs) t img lods eq_refl _ _ Hnz).
Qed.

Lemma pack_atlas_3d_inv paths t lods s file :
  pack_atlas_3d paths t lods = (inr s, file) ->
  exists bytes, file = Some bytes /\ packed paths t lods s bytes.
Proof.
  intros Hrun. apply pack_atlas_3d_inv_full in Hrun as (bytes & Hb & Hp & _).
  eauto.
Qed.

Lemma load_layers_keep_size paths :
  forall imgs sz imgs' size',
  fold_result load_layer paths (imgs, Some sz) = inr (imgs', size') -> size' = Some sz.
Proof.
  induction paths as [|p paths IH]; intros imgs sz imgs' size' Hrun.
  - now injection Hrun as _ <-.
  - cbn [fold_result] in Hrun.
    destruct (load_layer (imgs, Some sz) p) as [e|[imgs1 size1]] eqn:H1; [discriminate|].
    unfold load_layer in H1. destruct (Image_open p); [discriminate|].
    destruct sz as [w h].
    destruct (negb (width (to_rgba i) =? w) || negb (height (to_rgba i) =? h));
      [discriminate|].
    injection H1 as <- <-. eapply IH; eassumption.
Qed.

(** The recorded source size is the size of the first layer. *)
Lemma load_layers_first p paths img imgs W H :
  Image_open p = inr img ->
  load_layers (p :: paths) = inr (imgs, Some (W, H)) ->
  W = width img /\ H = height img.
Proof.
  intros Hopen. unfold load_layers. cbn [fold_result].
  rewrite (load_layer_first _ _ Hopen). intros Hrun.
  apply load_layers_keep_size in Hrun.
  injection Hrun as -> ->. apply to_rgba_sized. split; reflexivity.
Qed.

(** Fields of the header, read back from the file. *)

Lemma concat_le_bytes_length (vs : list Z) :
  length (concat (map (le_bytes 4) vs)) = (4 * length vs)%nat.
Proof.
  induction vs as [|v vs IH]; [reflexivity|]. cbn [map concat].
  rewrite length_app, le_bytes_length, IH. cbn [length]. lia.
Qed.

Lemma header_fixed_length W H t n : length (header_fixed W H t n) = 28%nat.
Proof. unfold header_fixed. now rewrite !length_app, !le_bytes_length. Qed.



Lemma header_tiles_full W H t lods io do rest :
  0 <= py_ceil_div W t < 2 ^ 32 -> 0 <= py_ceil_div H t < 2 ^ 32 ->
  le_value (slice (header_layout W H t lods io do ++ rest) (28 + 4 * length lods) 4)
    = py_ceil_div W t /\
  le_value (slice (header_layout W H t lods io do ++ rest) (32 + 4 * length lods) 4)
    = py_ceil_div H t.
Proof.
  intros Hx Hy. unfold header_layout, header_grid.
  set (hf := header_fixed W H t (Z.of_nat (length lods))).
  set (ls := concat (map (le_bytes 4) lods)).
  set (tail := le_bytes 4 NUM_LAYERS ++ (le_bytes 8 io ++ le_bytes 8 do) ++ rest).
  assert (Hhf : length hf = 28%nat) by apply header_fixed_length.
  assert (Hls : length ls = (4 * length lods)%nat) by apply concat_le_bytes_length.
  split.
  - match goal with
    | |- le_value (slice ?f _ _) = _ =>
        replace f with ((hf ++ ls) ++ le_bytes 4 (py_ceil_div W t)
                          ++ le_bytes 4 (py_ceil_div H t) ++ tail)
          by (unfold tail; rewrite <- !app_assoc; reflexivity)
    end.
    replace (28 + 4 * length lods)%nat with (length (hf ++ ls))
      by (rewrite length_app; lia).
    change 4%nat with (length (le_bytes 4 (py_ceil_div W t))) at 2.
    rewrite slice_app_mid. now apply (le_value_le_bytes 4).
  - match goal with
    | |- le_value (slice ?f _ _) = _ =>
        replace f with (((hf ++ ls) ++ le_bytes 4 (py_ceil_div W t))
                          ++ le_bytes 4 (py_ceil_div H t) ++ tail)
          by (unfold tail; rewrite <- !app_assoc; reflexivity)
    end.
    replace (32 + 4 * length lods)%nat
      with (length ((hf ++ ls) ++ le_bytes 4 (py_ceil_div W t)))
      by (rewrite !length_app, le_bytes_length; lia).
    change 4%nat with (length (le_bytes 4 (py_ceil_div H t))) at 2.
    rewrite slice_app_mid. now apply (le_value_le_bytes 4).
Qed.


End Packed.
(** ** Facts about the production order *)

Lemma py_ceil_div_quot D t :
  0 < t ->
  py_ceil_div D t = if D mod t =? 0 then D / t else D / t + 1.
Proof.
  intros Ht. unfold py_ceil_div.
  destruct (Z.eqb_spec (D mod t) 0) as [Hz|Hnz].
  - rewrite Z_div_zero_opp_full by lia. lia.
  - rewrite Z_div_nz_opp_full by lia. lia.
Qed.

Lemma tile_side_cases t D tx :
  0 < t -> 0 <= tx < py_ceil_div D t ->
  Z.min (tx * t + t) D - tx * t =
    if (tx =? py_ceil_div D t - 1) && negb (D mod t =? 0) then D mod t else t.
Proof.
  intros Ht Hx.
  pose proof (Z.div_mod D t ltac:(lia)) as Hdm.
  pose proof (Z.mod_pos_bound D t Ht) as Hm.
  revert Hx. rewrite (py_ceil_div_quot D t Ht).
  set (q := D / t) in *. set (r := D mod t) in *.
  destruct (Z.eqb_spec r 0) as [Hz|Hnz]; cbn [negb]; intros Hx.
  - rewrite andb_false_r.
    assert ((tx + 1) * t <= q * t) by (apply Z.mul_le_mono_nonneg_r; lia). lia.
  - rewrite andb_true_r. destruct (Z.eqb_spec tx (q + 1 - 1)) as [->|Hne]; [lia|].
    assert ((tx + 1) * t <= q * t) by (apply Z.mul_le_mono_nonneg_r; lia). lia.
Qed.

Lemma production_order_In W H t lods sh :
  In sh (production_order W H t lods) <->
  exists v z tx ty,
    In v lods /\ 0 <= z < NUM_LAYERS /\
    0 <= tx < py_ceil_div (fst (lod_size W H v)) t /\
    0 <= ty < py_ceil_div (snd (lod_size W H v)) t /\
    sh = tile_shape t v z (fst (lod_size W H v)) (snd (lod_size W H v)) ty tx.
Proof.
  unfold production_order, lod_shapes, layer_shapes. rewrite in_flat_map. split.
  - intros (v & Hv & Hin). apply in_flat_map in Hin as (z & Hz & Hin).
    apply py_range_In in Hz. apply grid_range_In in Hin as (tx & ty & Hx & Hy & ->).
    exists v, z, tx, ty. auto.
  - intros (v & z & tx & ty & Hv & Hz & Hx & Hy & ->).
    exists v. split; [assumption|]. apply in_flat_map. exists z.
    split; [now apply py_range_In|]. apply grid_range_In. eauto.
Qed.


Lemma grid_In {A B C} (g : A -> B -> C) xs ys c :
  In c (grid g xs ys) <-> exists y x, In y ys /\ In x xs /\ c = g y x.
Proof.
  unfold grid. rewrite in_flat_map. split.
  - intros (y & Hy & Hin). apply in_map_iff in Hin as (x & <- & Hx). eauto.
  - intros (y & x & Hy & Hx & ->). exists y. split; [assumption|]. now apply in_map.
Qed.

Lemma grid_cons {A B C} (g : A -> B -> C) xs y ys :
  grid g xs (y :: ys) = map (g y) xs ++ grid g xs ys.
Proof. reflexivity. Qed.

Lemma grid_NoDup {A B C} (g : A -> B -> C) xs ys :
  NoDup xs -> NoDup ys ->
  (forall y x y' x', g y x = g y' x' -> y = y' /\ x = x') ->
  NoDup (grid g xs ys).
Proof.
  intros Hxs Hys Hinj. induction Hys as [|y ys Hy Hys IH]; [constructor|].
  change (grid g xs (y :: ys)) with (map (g y) xs ++ grid g xs ys).
  apply NoDup_app.
  - clear -Hxs Hinj. induction Hxs as [|x xs Hx Hxs IH]; simpl; constructor; auto.
    intros Hin. apply in_map_iff in Hin as (x' & Heq & Hx').
    apply Hinj in Heq as [_ ->]. contradiction.
  - exact IH.
  - intros c Hc Hc'. apply in_map_iff in Hc as (x & <- & Hx).
    apply grid_In in Hc' as (y' & x' & Hy' & _ & Heq).
    apply Hinj in Heq as [-> _]. contradiction.
Qed.

Lemma py_range_NoDup n : NoDup (py_range n).
Proof.
  unfold py_range. generalize (seq_NoDup (Z.to_nat n) 0).
  generalize (seq 0 (Z.to_nat n)) as l.
  induction 1 as [|k l Hk Hl IH]; simpl; constructor; auto.
  intros Hin. apply in_map_iff in Hin as (k' & Heq & Hk').
  apply Nat2Z.inj in Heq as ->. contradiction.
Qed.

(** The keys of one LOD, as one grid over layers and cells. *)
Lemma lod_keys_grid W H t v :
  map shape_key (lod_shapes W H t v) =
    grid (fun z (c : Z * Z) => (v, z, snd c, fst c))
         (grid pair (py_range (py_ceil_div (fst (lod_size W H v)) t))
                    (py_range (py_ceil_div (snd (lod_size W H v)) t)))
         (py_range NUM_LAYERS).
Proof.
  unfold lod_shapes. generalize (py_range NUM_LAYERS) as zs.
  induction zs as [|z zs IH]; [reflexivity|].
  cbn [flat_map]. rewrite grid_cons, map_app, IH. f_equal.
  unfold layer_shapes. rewrite !grid_map. reflexivity.
Qed.

Lemma lod_keys_count W H t v key :
  count_occ key_eq_dec (map shape_key (lod_shapes W H t v)) key =
    if Z.eq_dec (fst (fst (fst key))) v
    then (if valid_key W H t key then 1 else 0)%nat
    else 0%nat.
Proof.
  destruct key as [[[s z] tx] ty]. cbn [fst].
  assert (Hnd : NoDup (map shape_key (lod_shapes W H t v))).
  { rewrite lod_keys_grid. apply grid_NoDup.
    - apply grid_NoDup; auto using py_range_NoDup.
      intros y x y' x' [= -> ->]. auto.
    - apply py_range_NoDup.
    - intros y [a b] y' [a' b']. cbn [fst snd]. intros [= -> -> ->]. auto. }
  assert (Hin : In (s, z, tx, ty) (map shape_key (lod_shapes W H t v)) <->
                s = v /\ valid_key W H t (s, z, tx, ty) = true).
  { rewrite lod_keys_grid, grid_In. unfold valid_key. split.
    - intros (z' & [cy cx] & Hz & Hc & Heq). cbn [fst snd] in Heq.
      injection Heq as -> -> -> ->.
      apply py_range_In in Hz. apply grid_In in Hc as (y & x & Hy & Hx & [= -> ->]).
      apply py_range_In in Hy, Hx. split; [reflexivity|].
      repeat (apply andb_true_intro; split); lia.
    - intros [-> Hv].
      repeat (apply andb_prop in Hv as [Hv ?]).
      exists z, (ty, tx). cbn [fst snd]. split; [apply py_range_In; lia|].
      split; [|reflexivity]. apply grid_In. exists ty, tx.
      repeat split; apply py_range_In; lia. }
  rewrite (NoDup_count_occ key_eq_dec) in Hnd. specialize (Hnd (s, z, tx, ty)).
  rewrite (count_occ_In key_eq_dec) in Hin.
  destruct (Z.eq_dec s v) as [->|Hne].
  - destruct (valid_key W H t (v, z, tx, ty)).
    + assert (count_occ key_eq_dec (map shape_key (lod_shapes W H t v)) (v, z, tx, ty) > 0)%nat
        by (apply Hin; auto). lia.
    + destruct (count_occ key_eq_dec (map shape_key (lod_shapes W H t v)) (v, z, tx, ty))
        as [|n] eqn:Hc; [reflexivity|].
      assert (Hpos : (S n > 0)%nat) by lia. apply Hin in Hpos as [_ Hf]. discriminate.
  - destruct (count_occ key_eq_dec (map shape_key (lod_shapes W H t v)) (s, z, tx, ty))
      as [|n] eqn:Hc; [reflexivity|].
    assert (Hpos : (S n > 0)%nat) by lia. apply Hin in Hpos as [Hs _]. contradiction.
Qed.

Lemma production_keys_count W H t lods key :
  count_occ key_eq_dec (map shape_key (production_order W H t lods)) key =
    if valid_key W H t key
    then count_occ Z.eq_dec lods (fst (fst (fst key)))
    else 0%nat.
Proof.
  unfold production_order. induction lods as [|v lods IH].
  - simpl. now destruct (valid_key W H t key).
  - cbn [flat_map]. rewrite map_app, count_occ_app, IH, lod_keys_count.
    cbn [count_occ].
    destruct (Z.eq_dec v (fst (fst (fst key)))) as [Heq|Hne];
      destruct (Z.eq_dec (fst (fst (fst key))) v) as [Heq'|Hne']; try congruence;
      destruct (valid_key W H t key); lia.
Qed.

(** ** Properties of [pack_atlas_3d] *)

Section Claims.
Context {pil : PIL}.

Lemma packed_index_slice paths t lods s bytes :
  packed paths t lods s bytes ->
  slice bytes (Z.to_nat (s_index_offset s)) (36 * length (s_index_entries s))
    = concat (map entry_layout (s_index_entries s)) /\
  skipn (Z.to_nat (s_data_offset s)) bytes = concat (s_tile_data_blobs s) /\
  Z.of_nat (length bytes) =
    s_data_offset s + Z.of_nat (length (concat (s_tile_data_blobs s))).
Proof.
  intros (_ & _ & _ & _ & _ & _ & _ & _ & _ & Hhe & Hio & Hdo & _ & ->).
  pose proof (header_layout_length (s_width s) (s_height s) t lods
                (s_index_offset s) (s_data_offset s)) as Hlen.
  pose proof (index_layout_length (s_index_entries s)) as Hidx.
  repeat split.
  - replace (Z.to_nat (s_index_offset s))
      with (length (header_layout (s_width s) (s_height s) t lods
                      (s_index_offset s) (s_data_offset s))) by lia.
    rewrite <- Hidx. apply slice_app_mid.
  - rewrite app_assoc.
    replace (Z.to_nat (s_data_offset s))
      with (length (header_layout (s_width s) (s_height s) t lods
                      (s_index_offset s) (s_data_offset s)
                      ++ concat (map entry_layout (s_index_entries s))))
      by (rewrite length_app; lia).
    rewrite skipn_app, skipn_all, Nat.sub_diag. reflexivity.
  - rewrite !length_app. lia.
Qed.



Lemma filter_lod_shapes (es : list entry) v :
  length (filter (fun e => e_lod e =? v) es)
    = length (filter (fun sh => fst (fst (fst (shape_key sh))) =? v) (map e_shape es)).
Proof.
  induction es as [|e es IH]; [reflexivity|]. cbn [map filter].
  change (fst (fst (fst (shape_key (e_shape e))))) with (e_lod e).
  destruct (e_lod e =? v); cbn [length]; now rewrite IH.
Qed.

(** C6: for four 300x300 layers, [tile_px = 256] and [lods = [1, 2]], the
    header records [tiles_x_full = tiles_y_full = 2] and the index has 20
    entries: 16 for LOD 1 and 4 for LOD 2. *)
Theorem pack_example_300 paths s file :
  Forall (fun p => exists img, Image_open p = inr img /\
                               width img = 300 /\ height img = 300) paths ->
  pack_atlas_3d paths 256 [1; 2] = (inr s, file) ->
  exists bytes, file = Some bytes /\
    le_value (slice bytes 36 4) = 2 /\
    le_value (slice bytes 40 4) = 2 /\
    length (s_index_entries s) = 20%nat /\
    length (filter (fun e => e_lod e =? 1) (s_index_entries s)) = 16%nat /\
    length (filter (fun e => e_lod e =? 2) (s_index_entries s)) = 4%nat.
Proof.
  intros Hsrc Hrun. apply pack_atlas_3d_inv in Hrun as (bytes & -> & Hp).
  exists bytes. split; [reflexivity|].
  destruct Hp as ((imgs & Hload) & Ht & Hlods & _ & Hx & Hy & Hshape & _ & _ & _ & _ & _ & Hbdo & Hbytes).
  assert (Hsize : s_width s = 300 /\ s_height s = 300).
  { destruct paths as [|p paths]; [discriminate|].
    inversion Hsrc as [|? ? (img & Hopen & HW & HH) _]; subst.
    destruct (load_layers_first _ _ _ _ _ _ Hopen Hload) as [-> ->]. auto. }
  destruct Hsize as [HW HH]. rewrite HW, HH in *.
  destruct (header_tiles_full 300 300 256 [1; 2] (s_index_offset s) (s_data_offset s)
              (concat (map entry_layout (s_index_entries s))
                 ++ concat (s_tile_data_blobs s)) Hx Hy) as [Hf1 Hf2].
  rewrite <- Hbytes in Hf1, Hf2.
  split; [exact Hf1|]. split; [exact Hf2|].
  rewrite !filter_lod_shapes, <- (length_map e_shape), Hshape.
  repeat split; vm_compute; reflexivity.
Qed.

(** C7: with a number of layer sources other than [NUM_LAYERS = 4] the
    packer raises the layer-count [ValueError] and the output file is never
    opened. *)
Theorem pack_layer_count_mismatch paths tile_px lods :
  length paths <> 4%nat ->
  pack_atlas_3d paths tile_px lods
    = (inl (ValueError_layer_count 4 (Z.of_nat (length paths))), None).
Proof.
  intros Hlen. unfold pack_atlas_3d.
  destruct (Z.eqb_spec (Z.of_nat (length paths)) NUM_LAYERS) as [Heq|Hne].
  - unfold NUM_LAYERS in Heq. lia.
  - reflexivity.
Qed.

End Claims.
(** ** LOD validation *)

Lemma check_lods_scan lods :
  fold_result
    (fun (_ : unit) v =>
       if (v =? 1) || (v =? 2) || (v =? 4) then inr tt
       else inl (ValueError_lods "LOD values must be subset of 1,2,4"))
    lods tt = inr tt
  <-> Forall (fun v => v = 1 \/ v = 2 \/ v = 4) lods.
Proof.
  induction lods as [|v lods IH]; cbn [fold_result].
  - split; [constructor|reflexivity].
  - destruct (Z.eqb_spec v 1) as [->|H1]; [|destruct (Z.eqb_spec v 2) as [->|H2];
      [|destruct (Z.eqb_spec v 4) as [->|H4]]]; cbn [orb].
    + rewrite IH. split; [constructor; auto|now inversion 1].
    + rewrite IH. split; [constructor; auto|now inversion 1].
    + rewrite IH. split; [constructor; auto|now inversion 1].
    + split; [discriminate|]. inversion 1 as [|? ? Hv _]; subst. lia.
Qed.

Lemma check_lods_accepts lods :
  check_lods lods = inr lods <->
  lods <> [] /\ Forall (fun v => v = 1 \/ v = 2 \/ v = 4) lods.
Proof.
  unfold check_lods. rewrite <- check_lods_scan.
  destruct (fold_result _ lods tt) as [e|[]].
  - split; [discriminate|]. intros [_ H]. discriminate.
  - destruct lods as [|v lods].
    + split; [discriminate|]. intros [H _]. contradiction.
    + split; [|reflexivity]. intros _. split; [discriminate|reflexivity].
Qed.

Section NoDedup.
Context {pil : PIL}.

(** C10: the packer does not deduplicate the LOD list: when it returns,
    every tile key [(lod, z, tile_x, tile_y)] of a LOD raster occurs in the
    index exactly as many times as its LOD value occurs in the supplied
    list (and other keys do not occur), so a value supplied [k > 1] times
    gives [k] index entries per key; and the validation in [main] accepts
    exactly the non-empty lists over [{1, 2, 4}], duplicates included, as
    for [--lods 2,2]. *)
Theorem pack_no_deduplication paths tile_px lods s file :
  pack_atlas_3d paths tile_px lods = (inr s, file) ->
  (forall key,
      count_occ key_eq_dec (map e_key (s_index_entries s)) key =
        if valid_key (s_width s) (s_height s) tile_px key
        then count_occ Z.eq_dec lods (fst (fst (fst key)))
        else 0%nat) /\
  (forall lods', check_lods lods' = inr lods' <->
                 lods' <> [] /\ Forall (fun v => v = 1 \/ v = 2 \/ v = 4) lods') /\
  main_lods "2,2" = inr [2; 2].
Proof.
  intros Hrun. apply pack_atlas_3d_inv in Hrun as (bytes & -> & Hp).
  destruct Hp as (_ & _ & _ & _ & _ & _ & Hshape & _).
  split; [|split; [exact check_lods_accepts|reflexivity]].
  intros key.
  replace (map e_key (s_index_entries s))
    with (map shape_key (map e_shape (s_index_entries s)))
    by (rewrite map_map; reflexivity).
  rewrite Hshape. apply production_keys_count.
Qed.

End NoDedup.
(** ** Reading a packed container back *)

Lemma slice_app_inner (pre mid post : list byte) a n :
  (a + n <= length mid)%nat ->
  slice (pre ++ mid ++ post) (length pre + a) n = slice mid a n.
Proof.
  intros Hle. unfold slice.
  rewrite skipn_app, skipn_all2 by lia.
  replace (length pre + a - length pre)%nat with a by lia. cbn [app].
  rewrite skipn_app, firstn_app, length_skipn.
  replace (a - length mid)%nat with 0%nat by lia.
  replace (n - (length mid - a))%nat with 0%nat by lia.
  cbn [skipn firstn]. apply app_nil_r.
Qed.

Lemma slice_prefix (pre post : list byte) a n :
  (a + n <= length pre)%nat -> slice (pre ++ post) a n = slice pre a n.
Proof. intros Hle. exact (slice_app_inner [] pre post a n Hle). Qed.

Lemma read_entry_layout pre post e :
  entry_ok e -> read_entry (pre ++ entry_layout e ++ post) (length pre) = e.
Proof.
  intros (B1 & B2 & B3 & B4 & B5 & B6 & (r & Hr & Br) & B8).
  pose proof (entry_layout_length e) as Hlen.
  unfold read_entry, read_u32, read_u64.
  rewrite <- (Nat.add_0_r (length pre)) at 1.
  rewrite !slice_app_inner by lia.
  unfold entry_layout. rewrite Hr.
  change (slice _ 0 4) with (le_bytes 4 (e_lod e)).
  change (slice _ 4 4) with (le_bytes 4 (e_z e)).
  change (slice _ 8 4) with (le_bytes 4 (e_tx e)).
  change (slice _ 12 4) with (le_bytes 4 (e_ty e)).
  change (slice _ 16 4) with (le_bytes 4 (e_w e)).
  change (slice _ 20 4) with (le_bytes 4 (e_h e)).
  change (slice _ 24 8) with (le_bytes 8 r).
  change (slice _ 32 4) with (le_bytes 4 (e_length e)).
  rewrite !(le_value_le_bytes 4), (le_value_le_bytes 8) by assumption.
  destruct e; cbn in *. now subst.
Qed.

Lemma concat_nth_split {A} (ls : list (list A)) k l :
  nth_error ls k = Some l ->
  concat ls = concat (firstn k ls) ++ l ++ concat (skipn (S k) ls).
Proof.
  intros Hk. rewrite <- (firstn_skipn_middle _ _ Hk) at 1.
  now rewrite concat_app.
Qed.

Lemma contiguous_nth es :
  forall c (blobs : list (list byte)) k e,
  contiguous_from c es ->
  Forall2 (fun e b => e_length e = Z.of_nat (length b)) es blobs ->
  nth_error es k = Some e ->
  exists blob, nth_error blobs k = Some blob /\
    e_length e = Z.of_nat (length blob) /\
    e_rel_off e = Some (c + Z.of_nat (length (concat (firstn k blobs)))).
Proof.
  induction es as [|e0 es IH]; intros c blobs k e Hc Hpar Hk; [now destruct k|].
  inversion Hpar as [|? b ? bs Hlen Hrest]; subst. destruct Hc as [H0 Hc].
  destruct k as [|k].
  - injection Hk as <-. exists b. cbn. rewrite Z.add_0_r. auto.
  - cbn [nth_error] in Hk.
    destruct (IH _ _ _ _ Hc Hrest Hk) as (blob & Hb & Hl & Hr).
    exists blob. cbn [nth_error firstn concat]. repeat split; try assumption.
    rewrite Hr, length_app. f_equal. lia.
Qed.

Section ReadBack.
Context {pil : PIL}.

(** X1: after a returning run, the 36 bytes at [index_offset + 36 * k]
    decode, field by field, to the [k]-th index entry. *)
Theorem index_record_roundtrip paths tile_px lods s out :
  pack_atlas_3d paths tile_px lods = (inr s, out) ->
  exists bytes, out = Some bytes /\
    forall k e, nth_error (s_index_entries s) k = Some e ->
      read_entry bytes (Z.to_nat (s_index_offset s) + 36 * k) = e.
Proof.
  intros Hrun. apply pack_atlas_3d_inv_full in Hrun
    as (bytes & -> & Hp & _ & _ & Hok & _).
  exists bytes. split; [reflexivity|]. intros k e Hk.
  destruct Hp as (_ & _ & _ & _ & _ & _ & _ & _ & _ & Hhe & Hio & _ & _ & ->).
  pose proof (header_layout_length (s_width s) (s_height s) tile_px lods
                (s_index_offset s) (s_data_offset s)) as Hlen.
  rewrite (concat_nth_split _ k (entry_layout e)) by (now apply map_nth_error).
  rewrite <- !app_assoc, (app_assoc (header_layout _ _ _ _ _ _)).
  replace (Z.to_nat (s_index_offset s) + 36 * k)%nat
    with (length (header_layout (s_width s) (s_height s) tile_px lods
                    (s_index_offset s) (s_data_offset s)
                    ++ concat (firstn k (map entry_layout (s_index_entries s))))).
  - apply read_entry_layout. eapply Forall_forall; [exact Hok|].
    eapply nth_error_In; eassumption.
  - rewrite length_app, Hlen, firstn_map, index_layout_length, length_firstn.
    assert (k < length (s_index_entries s))%nat by (apply nth_error_Some; congruence).
    lia.
Qed.

(** X2: after a returning run, entry [k] points at its own payload: the
    [byte_length] bytes of the file at [data_offset + rel_offset] are the
    [k]-th encoded tile. *)
Theorem payload_located paths tile_px lods s out :
  pack_atlas_3d paths tile_px lods = (inr s, out) ->
  exists bytes, out = Some bytes /\
    forall k e, nth_error (s_index_entries s) k = Some e ->
      exists r blob,
        e_rel_off e = Some r /\
        nth_error (s_tile_data_blobs s) k = Some blob /\
        e_length e = Z.of_nat (length blob) /\
        slice bytes (Z.to_nat (s_data_offset s + r)) (length blob) = blob.
Proof.
  intros Hrun. apply pack_atlas_3d_inv_full in Hrun
    as (bytes & -> & Hp & _ & _ & _ & Hpar & _).
  exists bytes. split; [reflexivity|]. intros k e Hk.
  destruct Hp as (_ & _ & _ & _ & _ & _ & _ & Hcont & _ & Hhe & Hio & Hdo & _ & ->).
  destruct (contiguous_nth _ _ _ _ _ Hcont Hpar Hk) as (blob & Hb & Hl & Hr).
  exists (0 + Z.of_nat (length (concat (firstn k (s_tile_data_blobs s))))), blob.
  repeat split; try assumption.
  pose proof (header_layout_length (s_width s) (s_height s) tile_px lods
                (s_index_offset s) (s_data_offset s)) as Hlen.
  pose proof (index_layout_length (s_index_entries s)) as Hidx.
  rewrite (concat_nth_split _ k blob Hb).
  rewrite !app_assoc, <- (app_assoc _ blob).
  match goal with
  | |- slice (?pre ++ _ ++ _) ?off _ = _ => replace off with (length pre)
  end.
  - apply slice_app_mid.
  - rewrite !length_app, Hlen, Hidx. lia.
Qed.

End ReadBack.
(** ** More about the header and the index of a returning run *)

Lemma py_ceil_div_le D t : 0 < t -> 0 <= D -> py_ceil_div D t <= D.
Proof.
  intros Ht HD. pose proof (py_ceil_div_is_ceil D t Ht) as Hc. unfold is_ceil in Hc.
  destruct (Z.le_gt_cases (py_ceil_div D t) D) as [|Hgt]; [assumption|exfalso].
  assert (D * 1 <= (py_ceil_div D t - 1) * t)
    by (apply Z.mul_le_mono_nonneg; lia).
  lia.
Qed.



Section HeaderFacts.
Context {pil : PIL}.

Lemma header_num_layers W H t lods io do rest :
  le_value (slice (header_layout W H t lods io do ++ rest) (36 + 4 * length lods) 4)
    = NUM_LAYERS.
Proof.
  unfold header_layout, header_grid.
  set (hf := header_fixed W H t (Z.of_nat (length lods))).
  set (ls := concat (map (le_bytes 4) lods)).
  assert (Hhf : length hf = 28%nat) by apply header_fixed_length.
  assert (Hls : length ls = (4 * length lods)%nat) by apply concat_le_bytes_length.
  match goal with
  | |- le_value (slice ?f _ _) = _ =>
      replace f with (((hf ++ ls) ++ le_bytes 4 (py_ceil_div W t)
                         ++ le_bytes 4 (py_ceil_div H t))
                        ++ le_bytes 4 NUM_LAYERS
                        ++ (le_bytes 8 io ++ le_bytes 8 do) ++ rest)
        by (rewrite <- !app_assoc; reflexivity)
  end.
  replace (36 + 4 * length lods)%nat
    with (length ((hf ++ ls) ++ le_bytes 4 (py_ceil_div W t)
                    ++ le_bytes 4 (py_ceil_div H t)))
    by (rewrite !length_app, !le_bytes_length; lia).
  change 4%nat with (length (le_bytes 4 NUM_LAYERS)) at 3.
  rewrite slice_app_mid. reflexivity.
Qed.

(** X3: after a returning run a reader recovers every fixed header field:
    the magic tag, the version, the source width and height, the tile
    edge, the full-resolution grid [ceil(width/tile_px)] by
    [ceil(height/tile_px)] and the layer count 4. *)
Theorem header_roundtrip paths tile_px lods s out :
  pack_atlas_3d paths tile_px lods = (inr s, out) ->
  exists bytes, out = Some bytes /\
    slice bytes 0 8 = MAGIC /\
    read_u32 bytes 8 = VERSION /\
    read_u32 bytes 12 = s_width s /\
    read_u32 bytes 16 = s_height s /\
    read_u32 bytes 20 = tile_px /\
    read_u32 bytes (28 + 4 * length lods) = py_ceil_div (s_width s) tile_px /\
    read_u32 bytes (32 + 4 * length lods) = py_ceil_div (s_height s) tile_px /\
    read_u32 bytes (36 + 4 * length lods) = NUM_LAYERS.
Proof.
  intros Hrun. apply pack_atlas_3d_inv_full in Hrun
    as (bytes & -> & Hp & _ & [HbW HbH] & _).
  exists bytes. split; [reflexivity|].
  destruct Hp as (_ & Ht & _ & _ & Hx & Hy & _ & _ & _ & _ & _ & _ & _ & Hbytes).
  destruct (header_tiles_full (s_width s) (s_height s) tile_px lods
              (s_index_offset s) (s_data_offset s)
              (concat (map entry_layout (s_index_entries s))
                 ++ concat (s_tile_data_blobs s)) Hx Hy) as [Hf1 Hf2].
  pose proof (header_num_layers (s_width s) (s_height s) tile_px lods
              (s_index_offset s) (s_data_offset s)
              (concat (map entry_layout (s_index_entries s))
                 ++ concat (s_tile_data_blobs s))) as Hf3.
  rewrite <- Hbytes in Hf1, Hf2, Hf3.
  assert (Hfix : forall off n, (off + n <= 28)%nat ->
            slice bytes off n
              = slice (header_fixed (s_width s) (s_height s) tile_px
                         (Z.of_nat (length lods))) off n).
  { intros off n Hle. rewrite Hbytes. unfold header_layout. rewrite <- !app_assoc.
    apply slice_prefix. rewrite header_fixed_length. lia. }
  unfold read_u32. rewrite !Hfix by lia.
  split; [reflexivity|]. split; [reflexivity|].
  split; [now apply (le_value_le_bytes 4 (s_width s))|].
  split; [now apply (le_value_le_bytes 4 (s_height s))|].
  split; [apply (le_value_le_bytes 4 tile_px); lia|].
  repeat split; assumption.
Qed.


Lemma to_rgba_size img :
  width (to_rgba img) = width img /\ height (to_rgba img) = height img.
Proof. apply to_rgba_sized. split; reflexivity. Qed.

Lemma load_layers_opened paths :
  forall acc size imgs' W H,
  fold_result load_layer paths (acc, size) = inr (imgs', Some (W, H)) ->
  Forall (fun p => exists img, Image_open p = inr img /\ width img = W /\ height img = H)
         paths.
Proof.
  induction paths as [|p paths IH]; intros acc size imgs' W H Hrun; [constructor|].
  cbn [fold_result] in Hrun.
  destruct (load_layer (acc, size) p) as [e|[acc1 size1]] eqn:H1; [discriminate|].
  unfold load_layer in H1.
  destruct (Image_open p) as [e|img] eqn:Hopen; [discriminate|].
  destruct (to_rgba_size img) as [Hw Hh].
  assert (Hs1 : size1 = Some (width img, height img)).
  { destruct size as [[w h]|].
    - destruct (Z.eqb_spec (width (to_rgba img)) w), (Z.eqb_spec (height (to_rgba img)) h);
        try discriminate.
      injection H1 as _ <-. congruence.
    - injection H1 as _ <-. congruence. }
  subst size1. pose proof (load_layers_keep_size _ _ _ _ _ Hrun) as Hk.
  injection Hk as -> ->.
  constructor; [eauto|]. eapply IH; eassumption.
Qed.

(** X5: the packer returns only for four sources that all decode to the
    same size, with sides below [2^32], a tile edge in [1, 2^32) and LOD
    factors in [1, 2^32) (fewer than [2^32] of them); in particular never
    with [tile_px = 0] or a LOD factor 0. *)
Theorem pack_returns_only_for paths tile_px lods s out :
  pack_atlas_3d paths tile_px lods = (inr s, out) ->
  length paths = 4%nat /\
  Forall (fun p => exists img, Image_open p = inr img /\
                               width img = s_width s /\ height img = s_height s) paths /\
  0 <= s_width s < 2 ^ 32 /\ 0 <= s_height s < 2 ^ 32 /\
  1 <= tile_px < 2 ^ 32 /\
  Forall (fun v => 1 <= v < 2 ^ 32) lods /\
  Z.of_nat (length lods) < 2 ^ 32.
Proof.
  intros Hrun. apply pack_atlas_3d_inv_full in Hrun
    as (bytes & -> & Hp & Hlen & [HbW HbH] & _ & _ & Hnz).
  destruct Hp as ((imgs & Hload) & Ht & Hlods & Hn & _).
  split; [assumption|]. split; [exact (load_layers_opened _ _ _ _ _ _ Hload)|].
  do 2 (split; [assumption|]). split; [lia|]. split; [|assumption].
  apply Forall_forall. intros v Hv.
  pose proof (proj1 (Forall_forall _ _) Hlods v Hv) as Hb.
  cbv beta in Hb. assert (v <> 0) by (intros ->; contradiction). lia.
Qed.

End HeaderFacts.
(** ** Edge cases of the partitioner *)

(** X16: the tile count [ceil(a / b)], computed through a float quotient
    as the source does, is an integer between 0 and the exact ceiling of
    [a / b] for every numerator [0 <= a < 2^53] and positive divisor, and
    it is the exact ceiling as long as the divisor is below [2^1075]. *)
Theorem ceil_quotient_exact (a b : Z) :
  0 <= a < 2 ^ 53 -> 0 < b ->
  exists n, ceil_truediv a b = inr n /\ 0 <= n <= py_ceil_div a b /\
    (b < 2 ^ 1075 -> n = py_ceil_div a b /\ is_ceil a b n).
Proof.
  intros Ha Hb. destruct (ceil_truediv_le a b Ha Hb) as (n & Hn & Hle).
  exists n. split; [exact Hn|]. split; [exact Hle|]. intros Hmax.
  rewrite ceil_truediv_exact in Hn by lia. injection Hn as <-.
  split; [reflexivity|]. now apply py_ceil_div_is_ceil.
Qed.

Section PartitionerEdges.
Context {pil : PIL}.

(** X6: a zero tile edge makes the partitioner raise
    [ZeroDivisionError]; a negative one yields no tile at all for an image
    with non-negative sides. *)
Theorem iter_tiles_nonpositive_tile (img : Image) (tile_px : Z) :
  (tile_px = 0 -> iter_tiles img tile_px = inl ZeroDivisionError) /\
  (tile_px < 0 -> 0 <= width img -> 0 <= height img ->
   iter_tiles img tile_px = inr []).
Proof.
  split.
  - intros ->. reflexivity.
  - intros Ht _ _. unfold iter_tiles. destruct (size_range img) as [HW HH].
    destruct (ceil_truediv_neg (width img) tile_px HW Ht) as (nx & -> & _).
    destruct (ceil_truediv_neg (height img) tile_px HH Ht) as (ny & -> & Hny).
    f_equal. apply length_zero_iff_nil.
    change (length (grid (fun ty tx => tile_of img tile_px tx ty)
                         (py_range nx) (py_range ny)) = 0%nat).
    rewrite grid_length, !py_range_length. lia.
Qed.

(** X7: for a positive tile edge every yielded box starts at
    [(tile_x * tile_px, tile_y * tile_px)], lies inside the image and is at
    most [tile_px] wide and high. *)
Theorem iter_tiles_boxes_bounded (img : Image) (tile_px : Z) l :
  0 < tile_px -> iter_tiles img tile_px = inr l ->
  forall tx ty x0 y0 x1 y1, In (tx, ty, (x0, y0, x1, y1)) l ->
    x0 = tx * tile_px /\ y0 = ty * tile_px /\
    0 <= x0 < x1 /\ x1 <= width img /\ x1 - x0 <= tile_px /\
    0 <= y0 < y1 /\ y1 <= height img /\ y1 - y0 <= tile_px.
Proof.
  intros Ht. unfold iter_tiles. destruct (size_range img) as [HW HH].
  destruct (ceil_truediv_le (width img) tile_px HW Ht) as (nx & -> & Hnx).
  destruct (ceil_truediv_le (height img) tile_px HH Ht) as (ny & -> & Hny).
  intros [= <-] tx ty x0 y0 x1 y1 Hin.
  apply (grid_range_In (fun ty tx => tile_of img tile_px tx ty))
    in Hin as (tx' & ty' & Hx & Hy & Heq).
  unfold tile_of in Heq. injection Heq as -> -> -> -> -> ->.
  pose proof (ceil_cell_lt (width img) tile_px tx' Ht ltac:(lia)).
  pose proof (ceil_cell_lt (height img) tile_px ty' Ht ltac:(lia)).
  assert (0 <= tx' * tile_px) by (apply Z.mul_nonneg_nonneg; lia).
  assert (0 <= ty' * tile_px) by (apply Z.mul_nonneg_nonneg; lia).
  lia.
Qed.

End PartitionerEdges.

(** ** Running the writer forward *)

Lemma bind_ok {A B} (m : M A) (k : A -> M B) f a f1 :
  m f = (inr a, f1) -> bind m k f = k a f1.
Proof. unfold bind. now intros ->. Qed.

Lemma bind_err {A B} (m : M A) (k : A -> M B) f e f1 :
  m f = (inl e, f1) -> bind m k f = (inl e, f1).
Proof. unfold bind. now intros ->. Qed.

Lemma write_I_run v b :
  0 <= v < 2 ^ 32 -> write_I v (at_eof b) = (inr tt, at_eof (b ++ le_bytes 4 v)).
Proof.
  intros Hv. unfold write_I, struct_pack_I.
  destruct (Z.leb_spec 0 v); [|lia]. destruct (Z.ltb_spec v (2 ^ 32)); [|lia].
  cbn [andb]. unfold bind, lift. apply f_write_eof.
Qed.

Lemma write_Q_run v b :
  0 <= v < 2 ^ 64 -> write_Q v (at_eof b) = (inr tt, at_eof (b ++ le_bytes 8 v)).
Proof.
  intros Hv. unfold write_Q, struct_pack_Q.
  destruct (Z.leb_spec 0 v); [|lia]. destruct (Z.ltb_spec v (2 ^ 64)); [|lia].
  cbn [andb]. unfold bind, lift. apply f_write_eof.
Qed.

Lemma write_I_opt_run v b :
  0 <= v < 2 ^ 32 ->
  write_I_opt (Some v) (at_eof b) = (inr tt, at_eof (b ++ le_bytes 4 v)).
Proof. intros Hv. exact (write_I_run v b Hv). Qed.

Lemma for_each_run {A} (body : A -> M unit) (out : A -> list byte) (ok : A -> Prop) :
  (forall x b, ok x -> body x (at_eof b) = (inr tt, at_eof (b ++ out x))) ->
  forall xs b, Forall ok xs ->
    for_each xs body (at_eof b) = (inr tt, at_eof (b ++ concat (map out xs))).
Proof.
  intros Hbody. induction xs as [|x xs IH]; intros b Hok.
  - cbn. now rewrite app_nil_r.
  - inversion Hok as [|? ? Hx Hxs]; subst. cbn [for_each map concat].
    rewrite (bind_ok _ _ _ _ _ (Hbody x b Hx)), IH by assumption.
    now rewrite app_assoc.
Qed.

Section Forward.
Context {pil : PIL}.

(** The header up to and including the [lods] array. *)
Lemma pack_body_prefix W H t lods (k : M summary) :
  0 <= W < 2 ^ 32 -> 0 <= H < 2 ^ 32 -> 0 <= t < 2 ^ 32 ->
  Z.of_nat (length lods) < 2 ^ 32 ->
  Forall (fun v => 0 <= v < 2 ^ 32) lods ->
  (f_write MAGIC ;;;
   write_I VERSION ;;;
   write_I_opt (option_map fst (Some (W, H))) ;;;
   write_I_opt (option_map snd (Some (W, H))) ;;;
   write_I t ;;;
   write_I (Z.of_nat (length lods)) ;;;
   for_each lods write_I ;;;
   k) empty_file
  = k (at_eof (header_fixed W H t (Z.of_nat (length lods))
                 ++ concat (map (le_bytes 4) lods))).
Proof.
  intros HW HH Ht Hn Hlods. change empty_file with (at_eof []).
  rewrite (bind_ok _ _ _ _ _ (f_write_eof [] MAGIC)).
  rewrite (bind_ok _ _ _ _ _ (write_I_run VERSION _ ltac:(unfold VERSION; lia))).
  cbn [option_map fst snd].
  rewrite (bind_ok _ _ _ _ _ (write_I_opt_run W _ HW)).
  rewrite (bind_ok _ _ _ _ _ (write_I_opt_run H _ HH)).
  rewrite (bind_ok _ _ _ _ _ (write_I_run t _ Ht)).
  rewrite (bind_ok _ _ _ _ _ (write_I_run (Z.of_nat (length lods)) _ ltac:(lia))).
  rewrite (bind_ok _ _ _ _ _
             (for_each_run write_I (le_bytes 4) _ write_I_run lods _ Hlods)).
  unfold header_fixed. rewrite <- !app_assoc. reflexivity.
Qed.

(** Validation accepts four same-size layers and keeps them, normalised, in
    order. *)
Lemma load_layers_next_ok W H paths imgs :
  Forall2 (fun p img => Image_open p = inr img /\ sized W H img) paths imgs ->
  forall acc,
  fold_result load_layer paths (acc, Some (W, H))
    = inr (acc ++ map to_rgba imgs, Some (W, H)).
Proof.
  induction 1 as [|p img paths imgs [Hopen Hs] _ IH]; intros acc.
  - cbn. now rewrite app_nil_r.
  - cbn [fold_result map]. rewrite (load_layer_next _ _ _ _ _ Hopen).
    destruct (to_rgba_sized _ _ _ Hs) as [-> ->]. rewrite !Z.eqb_refl. cbn [negb orb].
    rewrite IH, <- app_assoc. reflexivity.
Qed.

Lemma load_layers_ok W H paths imgs :
  paths <> [] ->
  Forall2 (fun p img => Image_open p = inr img /\ sized W H img) paths imgs ->
  load_layers paths = inr (map to_rgba imgs, Some (W, H)).
Proof.
  intros Hne Hall. destruct Hall as [|p img paths imgs [Hopen Hs] Hrest]; [contradiction|].
  unfold load_layers. cbn [fold_result map]. rewrite (load_layer_first _ _ Hopen).
  destruct (to_rgba_sized _ _ _ Hs) as [-> ->].
  now rewrite (load_layers_next_ok _ _ _ _ Hrest).
Qed.

(** X8: with [tile_px = 0] (four same-size layers, fields in range) the
    packer raises [ZeroDivisionError] after the output file was opened: the
    file is left holding only the first [28 + 4 * num_lods] header bytes,
    up to the [lods] array. *)
Theorem pack_zero_tile paths imgs W H lods :
  length paths = 4%nat ->
  Forall2 (fun p img => Image_open p = inr img /\ sized W H img) paths imgs ->
  0 <= W < 2 ^ 32 -> 0 <= H < 2 ^ 32 ->
  Z.of_nat (length lods) < 2 ^ 32 ->
  Forall (fun v => 0 <= v < 2 ^ 32) lods ->
  pack_atlas_3d paths 0 lods
    = (inl ZeroDivisionError,
       Some (header_fixed W H 0 (Z.of_nat (length lods))
               ++ concat (map (le_bytes 4) lods))).
Proof.
  intros Hlen Hall HW HH Hn Hlods. unfold pack_atlas_3d.
  rewrite Hlen. cbn [Z.of_nat negb Z.eqb NUM_LAYERS Pos.of_succ_nat Pos.succ Pos.eqb].
  rewrite (load_layers_ok W H paths imgs) by (assumption || (intros ->; discriminate)).
  unfold pack_body.
  rewrite pack_body_prefix by (assumption || lia).
  reflexivity.
Qed.

(** X9: when the LOD list contains 0 (four same-size layers, fields in
    range, positive tile edge) the packer fails during accumulation, after
    the whole header was written: the file is left holding exactly the
    [56 + 4 * num_lods] header bytes with both offset fields still 0. *)
Theorem pack_zero_lod paths imgs W H tile_px lods :
  length paths = 4%nat ->
  Forall2 (fun p img => Image_open p = inr img /\ sized W H img) paths imgs ->
  0 <= W < 2 ^ 32 -> 0 <= H < 2 ^ 32 -> 0 < tile_px < 2 ^ 32 ->
  Z.of_nat (length lods) < 2 ^ 32 ->
  Forall (fun v => 0 <= v < 2 ^ 32) lods ->
  In 0 lods ->
  exists e,
    pack_atlas_3d paths tile_px lods
      = (inl e, Some (header_layout W H tile_px lods 0 0)).
Proof.
  intros Hlen Hall HW HH Ht Hn Hlods Hzero. unfold pack_atlas_3d.
  rewrite Hlen. cbn [Z.of_nat negb Z.eqb NUM_LAYERS Pos.of_succ_nat Pos.succ Pos.eqb].
  rewrite (load_layers_ok W H paths imgs) by (assumption || (intros ->; discriminate)).
  unfold pack_body.
  rewrite pack_body_prefix by (assumption || lia).
  rewrite !ceil_truediv_u32 by assumption.
  unfold lift at 1 2. unfold bind at 1 2.
  pose proof (py_ceil_div_nonneg W tile_px ltac:(lia) ltac:(lia)).
  pose proof (py_ceil_div_nonneg H tile_px ltac:(lia) ltac:(lia)).
  pose proof (py_ceil_div_le W tile_px ltac:(lia) ltac:(lia)).
  pose proof (py_ceil_div_le H tile_px ltac:(lia) ltac:(lia)).
  rewrite (bind_ok _ _ _ _ _ (write_I_run (py_ceil_div W tile_px) _ ltac:(lia))).
  rewrite (bind_ok _ _ _ _ _ (write_I_run (py_ceil_div H tile_px) _ ltac:(lia))).
  rewrite (bind_ok _ _ _ _ _ (write_I_run NUM_LAYERS _ ltac:(unfold NUM_LAYERS; lia))).
  rewrite (bind_ok _ _ _ _ _ (write_Q_run 0 _ ltac:(lia))).
  rewrite (bind_ok _ _ _ _ _ (write_Q_run 0 _ ltac:(lia))).
  unfold f_tell at 1. unfold bind at 1.
  destruct (fold_result (pack_lod (map to_rgba imgs) tile_px) lods ([], []))
    as [e|st] eqn:Hacc.
  - exists e. unfold lift at 1. unfold bind at 1. cbn [buf at_eof]. do 2 f_equal.
    unfold header_layout, header_grid. rewrite <- !app_assoc. reflexivity.
  - exfalso. destruct imgs as [|img imgs].
    + inversion Hall; subst. discriminate.
    + exact (fold_pack_lod_nonzero (map to_rgba (img :: imgs)) tile_px (to_rgba img)
               lods eq_refl _ _ Hacc Hzero).
Qed.

End Forward.
(** ** The command line *)

Lemma list_ascii_of_string_app a b :
  list_ascii_of_string (a ++ b)
    = list_ascii_of_string a ++ list_ascii_of_string b.
Proof. induction a as [|c a IH]; cbn; [reflexivity|now rewrite IH]. Qed.

Lemma split_comma_app cur la lb :
  split_comma cur (la ++ ","%char :: lb) = split_comma cur la ++ split_comma [] lb.
Proof.
  revert cur. induction la as [|c la IH]; intros cur; cbn [app split_comma].
  - reflexivity.
  - destruct (Ascii.eqb c ","); [cbn [app]; f_equal|]; apply IH.
Qed.

Lemma parse_lods_fold arg :
  parse_lods arg = fold_result lods_step (split_comma [] (list_ascii_of_string arg)) [].
Proof. reflexivity. Qed.

Lemma lods_step_acc acc x :
  lods_step acc x = match lods_step [] x with
                    | inl e => inl e
                    | inr xs => inr (acc ++ xs)
                    end.
Proof.
  unfold lods_step. destruct (py_strip x) as [|c cs].
  - now rewrite app_nil_r.
  - now destruct (py_int (c :: cs)).
Qed.

Lemma fold_lods_step_acc toks :
  forall acc,
  fold_result lods_step toks acc =
    match fold_result lods_step toks [] with
    | inl e => inl e
    | inr xs => inr (acc ++ xs)
    end.
Proof.
  induction toks as [|x toks IH]; intros acc; cbn [fold_result].
  - now rewrite app_nil_r.
  - rewrite (lods_step_acc acc x). destruct (lods_step [] x) as [e|xs]; [reflexivity|].
    rewrite (IH (acc ++ xs)), (IH xs).
    destruct (fold_result lods_step toks []); [reflexivity|now rewrite app_assoc].
Qed.

Lemma parse_lods_join (a b : string) :
  parse_lods (a ++ "," ++ b) =
    match parse_lods a with
    | inl e => inl e
    | inr xs => match parse_lods b with
                | inl e => inl e
                | inr ys => inr (xs ++ ys)
                end
    end.
Proof.
  rewrite !parse_lods_fold, list_ascii_of_string_app.
  change (list_ascii_of_string ("," ++ b)) with (","%char :: list_ascii_of_string b).
  rewrite split_comma_app, fold_result_app.
  destruct (fold_result lods_step (split_comma [] (list_ascii_of_string a)) [])
    as [e|xs]; [reflexivity|].
  apply fold_lods_step_acc.
Qed.


Lemma check_lods_id lods lods' : check_lods lods = inr lods' -> lods' = lods.
Proof.
  unfold check_lods. destruct (fold_result _ lods tt); [discriminate|].
  destruct lods; [discriminate|]. now intros [= <-].
Qed.

Lemma main_lods_inv arg lods :
  main_lods arg = inr lods ->
  parse_lods arg = inr lods /\ lods <> [] /\
  Forall (fun v => v = 1 \/ v = 2 \/ v = 4) lods.
Proof.
  unfold main_lods. destruct (parse_lods arg) as [e|parsed]; [discriminate|].
  intros Hc. pose proof (check_lods_id _ _ Hc) as ->.
  apply check_lods_accepts in Hc. tauto.
Qed.

(** X11: two accepted [--lods] arguments joined by a comma are accepted,
    and give the first list followed by the second (repetitions kept). *)
Theorem main_lods_comma (a b : string) xs ys :
  main_lods a = inr xs -> main_lods b = inr ys ->
  main_lods (a ++ "," ++ b) = inr (xs ++ ys).
Proof.
  intros Ha Hb. apply main_lods_inv in Ha as (Hpa & Hna & Hfa).
  apply main_lods_inv in Hb as (Hpb & Hnb & Hfb).
  unfold main_lods. rewrite parse_lods_join, Hpa, Hpb.
  apply check_lods_accepts. split.
  - destruct xs; [contradiction|discriminate].
  - apply Forall_app. auto.
Qed.

(** ** Sources that cannot be read *)

Section Unreadable.
Context {pil : PIL}.

(** X14: when a layer source cannot be opened, and the sources before it
    decode to one size, the packer raises that error and the output file is
    never opened. *)
Theorem pack_open_error paths1 imgs1 p paths2 W H e tile_px lods :
  length (paths1 ++ p :: paths2) = 4%nat ->
  Forall2 (fun q img => Image_open q = inr img /\ sized W H img) paths1 imgs1 ->
  Image_open p = inl e ->
  pack_atlas_3d (paths1 ++ p :: paths2) tile_px lods = (inl e, None).
Proof.
  intros Hlen Hall Hopen. unfold pack_atlas_3d.
  rewrite Hlen. cbn [Z.of_nat negb Z.eqb NUM_LAYERS Pos.of_succ_nat Pos.succ Pos.eqb].
  assert (Hstep : forall st, load_layer st p = inl e).
  { intros [acc size]. unfold load_layer. now rewrite Hopen. }
  unfold load_layers. rewrite fold_result_app.
  destruct Hall as [|q img paths1 imgs1 [Hq Hs] Hrest].
  - cbn [fold_result]. now rewrite Hstep.
  - cbn [fold_result]. rewrite (load_layer_first _ _ Hq).
    destruct (to_rgba_sized _ _ _ Hs) as [-> ->].
    rewrite (load_layers_next_ok _ _ _ _ Hrest). cbn [fold_result].
    now rewrite Hstep.
Qed.

End Unreadable.

(** ** The theorems at concrete inputs

    The stand-in Pillow, the four 300x300 planes, [tile_px = 256] and
    [lods = [1, 2]]. *)

Ltac run_planes s out E :=
  destruct (pack_atlas_3d (pil := solid_pil) world_planes 256 [1; 2])
    as [[?|s] out] eqn:E; [vm_compute in E; discriminate|].

Lemma tile_256_in_range : 0 < 256 < 2 ^ 1075.
Proof. split; [reflexivity|]. apply Z.ltb_lt. vm_compute. reflexivity. Defined.

Lemma iter_tiles_row_major_witness :
  exists nx ny l,
    is_ceil 300 256 nx /\ is_ceil 150 256 ny /\
    iter_tiles (pil := solid_pil) (mk_raster 300 150 "RGBA" 0) 256 = inr l /\
    Z.of_nat (length l) = nx * ny /\
    nth_error l 1 = Some (1, 0, (256, 0, 300, 150)).
Proof.
  destruct (iter_tiles_row_major (pil := solid_pil) (mk_raster 300 150 "RGBA" 0) 256)
    as (nx & ny & l & Hx & Hy & Hl & Hn & Hnth);
    [vm_compute; discriminate|vm_compute; discriminate|exact tile_256_in_range|].
  exists nx, ny, l. split; [exact Hx|]. split; [exact Hy|].
  split; [exact Hl|]. split; [exact Hn|].
  assert (Hnx : nx = 2).
  { apply (is_ceil_unique 300 256); [lia|exact Hx|unfold is_ceil; lia]. }
  assert (Hny : ny = 1).
  { apply (is_ceil_unique 150 256); [lia|exact Hy|unfold is_ceil; lia]. }
  subst nx ny. exact (Hnth 1 0 ltac:(lia) ltac:(lia)).
Defined.

Lemma iter_tiles_partition_witness :
  exists l,
    iter_tiles (pil := solid_pil) (mk_raster 300 150 "RGBA" 0) 256 = inr l /\
    forall x y, (exists t, In t l /\ in_box x y (tile_box t)) <->
                0 <= x < 300 /\ 0 <= y < 150.
Proof.
  destruct (iter_tiles_partition (pil := solid_pil) (mk_raster 300 150 "RGBA" 0) 256)
    as (l & Hl & _ & _ & Hu & _);
    [vm_compute; discriminate|vm_compute; discriminate|exact tile_256_in_range|].
  exists l. split; [exact Hl|exact Hu].
Defined.




Lemma pack_example_300_witness :
  exists s out,
    pack_atlas_3d (pil := solid_pil) world_planes 256 [1; 2] = (inr s, out) /\
    length (s_index_entries s) = 20%nat.
Proof.
  run_planes s out E. exists s, out. split; [reflexivity|].
  destruct (pack_example_300 (pil := solid_pil) world_planes s out)
    as (bytes & _ & _ & _ & Hn & _); [|exact E|exact Hn].
  repeat constructor; eexists; (split; [vm_compute; reflexivity|split; reflexivity]).
Defined.

Lemma pack_layer_count_mismatch_witness :
  pack_atlas_3d (pil := solid_pil) ["world_plane0.png"%string] 256 [1; 2]
    = (inl (ValueError_layer_count 4 1), None).
Proof.
  apply (pack_layer_count_mismatch (pil := solid_pil) ["world_plane0.png"%string]).
  simpl. lia.
Defined.

Lemma pack_no_deduplication_witness :
  exists s out,
    pack_atlas_3d (pil := solid_pil) world_planes 256 [2; 2] = (inr s, out) /\
    count_occ key_eq_dec (map e_key (s_index_entries s)) (2, 3, 0, 0) = 2%nat.
Proof.
  destruct (pack_atlas_3d (pil := solid_pil) world_planes 256 [2; 2])
    as [[e|s] out] eqn:E; [vm_compute in E; discriminate|].
  exists s, out. split; [reflexivity|].
  destruct (pack_no_deduplication (pil := solid_pil) _ _ _ _ _ E) as [Hcount _].
  rewrite Hcount.
  pose proof E as E'. vm_compute in E'. injection E' as Hs _. rewrite <- Hs.
  reflexivity.
Defined.

Lemma index_record_roundtrip_witness :
  exists s out,
    pack_atlas_3d (pil := solid_pil) world_planes 256 [1; 2] = (inr s, out) /\
    exists bytes, out = Some bytes /\
      forall e, nth_error (s_index_entries s) 19 = Some e ->
        read_entry bytes (Z.to_nat (s_index_offset s) + 36 * 19) = e.
Proof.
  run_planes s out E. exists s, out. split; [reflexivity|].
  destruct (index_record_roundtrip (pil := solid_pil) _ _ _ _ _ E) as (bytes & Hb & Hrt).
  exists bytes. split; [assumption|]. intros e. apply Hrt.
Defined.

Lemma payload_located_witness :
  exists s out,
    pack_atlas_3d (pil := solid_pil) world_planes 256 [1; 2] = (inr s, out) /\
    exists bytes, out = Some bytes /\
      forall e, nth_error (s_index_entries s) 0 = Some e ->
        exists r blob, e_rel_off e = Some r /\
          slice bytes (Z.to_nat (s_data_offset s + r)) (length blob) = blob.
Proof.
  run_planes s out E. exists s, out. split; [reflexivity|].
  destruct (payload_located (pil := solid_pil) _ _ _ _ _ E) as (bytes & Hb & Hloc).
  exists bytes. split; [assumption|]. intros e He.
  destruct (Hloc 0%nat e He) as (r & blob & Hr & _ & _ & Hs). eauto.
Defined.

Lemma header_roundtrip_witness :
  exists s out,
    pack_atlas_3d (pil := solid_pil) world_planes 256 [1; 2] = (inr s, out) /\
    exists bytes, out = Some bytes /\ slice bytes 0 8 = MAGIC /\ read_u32 bytes 8 = VERSION.
Proof.
  run_planes s out E. exists s, out. split; [reflexivity|].
  destruct (header_roundtrip (pil := solid_pil) _ _ _ _ _ E) as (bytes & Hb & Hm & Hv & _).
  eauto.
Defined.


Lemma pack_returns_only_for_witness :
  exists s out,
    pack_atlas_3d (pil := solid_pil) world_planes 256 [1; 2] = (inr s, out) /\
    1 <= 256 < 2 ^ 32 /\ Forall (fun v => 1 <= v < 2 ^ 32) [1; 2].
Proof.
  run_planes s out E. exists s, out. split; [reflexivity|].
  destruct (pack_returns_only_for (pil := solid_pil) _ _ _ _ _ E)
    as (_ & _ & _ & _ & Ht & Hl & _).
  auto.
Defined.

Lemma iter_tiles_nonpositive_tile_witness :
  iter_tiles (pil := solid_pil) (mk_raster 300 150 "RGBA" 0) (- 256) = inr [].
Proof.
  apply (iter_tiles_nonpositive_tile (pil := solid_pil) (mk_raster 300 150 "RGBA" 0) (- 256));
    vm_compute; congruence.
Defined.

Lemma iter_tiles_boxes_bounded_witness :
  exists l,
    iter_tiles (pil := solid_pil) (mk_raster 300 150 "RGBA" 0) 256 = inr l /\
    forall tx ty x0 y0 x1 y1, In (tx, ty, (x0, y0, x1, y1)) l ->
      x1 <= 300 /\ y1 <= 150.
Proof.
  eexists. split; [reflexivity|]. intros tx ty x0 y0 x1 y1 Hin.
  destruct (iter_tiles_boxes_bounded (pil := solid_pil) (mk_raster 300 150 "RGBA" 0) 256 _
              ltac:(lia) eq_refl tx ty x0 y0 x1 y1 Hin)
    as (_ & _ & _ & Hx & _ & _ & Hy & _).
  split; assumption.
Defined.

Lemma planes_open :
  Forall2 (fun p img => Image_open (PIL := solid_pil) p = inr img /\ sized 300 300 img)
          world_planes plane_rasters.
Proof. repeat constructor. Defined.

Lemma pack_zero_tile_witness :
  pack_atlas_3d (pil := solid_pil) world_planes 0 [1; 2]
    = (inl ZeroDivisionError,
       Some (header_fixed 300 300 0 2 ++ concat (map (le_bytes 4) [1; 2]))).
Proof.
  apply (pack_zero_tile (pil := solid_pil) world_planes plane_rasters 300 300 [1; 2]).
  - reflexivity.
  - exact planes_open.
  - lia.
  - lia.
  - simpl. lia.
  - repeat constructor; lia.
Defined.

Lemma pack_zero_lod_witness :
  exists e,
    pack_atlas_3d (pil := solid_pil) world_planes 256 [1; 0]
      = (inl e, Some (header_layout 300 300 256 [1; 0] 0 0)).
Proof.
  apply (pack_zero_lod (pil := solid_pil) world_planes plane_rasters 300 300 256 [1; 0]).
  - reflexivity.
  - exact planes_open.
  - lia.
  - lia.
  - lia.
  - simpl. lia.
  - repeat constructor; lia.
  - simpl. auto.
Defined.


Lemma main_lods_comma_witness : main_lods "1,2,4" = inr [1; 2; 4].
Proof. exact (main_lods_comma "1,2" "4" [1; 2] [4] eq_refl eq_refl). Defined.

Lemma pack_open_error_witness :
  pack_atlas_3d (pil := solid_pil)
    ["world_plane0.png"; "world_plane1.png"; "missing.png"; "world_plane3.png"]%string
    256 [1; 2]
  = (inl (OpenError "missing.png"), None).
Proof.
  apply (pack_open_error (pil := solid_pil)
           ["world_plane0.png"; "world_plane1.png"]%string
           [mk_raster 300 300 "RGBA" 0; mk_raster 300 300 "RGB" 1]
           "missing.png"%string ["world_plane3.png"%string] 300 300).
  - reflexivity.
  - repeat constructor.
  - reflexivity.
Defined.

Lemma ceil_quotient_exact_witness :
  exists n, ceil_truediv 300 256 = inr n /\ n = 2.
Proof.
  destruct (ceil_quotient_exact 300 256) as (n & Hn & _ & Hexact); [lia|lia|].
  exists n. split; [exact Hn|].
  destruct (Hexact (proj2 tile_256_in_range)) as [-> _]. reflexivity.
Defined.
(** ** What each payload encodes *)

Lemma Forall2_nth {A B} (R : A -> B -> Prop) xs ys k x y :
  Forall2 R xs ys -> nth_error xs k = Some x -> nth_error ys k = Some y -> R x y.
Proof.
  intros Hall. revert k. induction Hall as [|a b xs ys Hab _ IH]; intros k Hx Hy.
  - now destruct k.
  - destruct k as [|k]; cbn in Hx, Hy.
    + injection Hx as <-. injection Hy as <-. exact Hab.
    + eapply IH; eassumption.
Qed.

Lemma Forall2_shapes (P : shape -> list byte -> Prop) E R B :
  Forall2 (fun e b => P (e_shape e) b) E B ->
  map e_shape R = map e_shape E ->
  Forall2 (fun e b => P (e_shape e) b) R B.
Proof.
  intros Hall. revert R. induction Hall as [|e b E B He _ IH]; intros [|r R] Hmap;
    try discriminate; cbn [map] in Hmap; constructor.
  - assert (Hr : e_shape r = e_shape e) by congruence. now rewrite Hr.
  - apply IH. congruence.
Qed.

Lemma enumerate_nth {A} (xs : list A) :
  Forall (fun zb => nth_error xs (Z.to_nat (fst zb)) = Some (snd zb)) (enumerate xs).
Proof.
  apply Forall_forall. intros [z x] Hin. cbn [fst snd].
  unfold enumerate in Hin. apply In_nth_error in Hin as [k Hk].
  assert (Hz : nth_error (py_range (Z.of_nat (length xs))) k = Some z /\
               nth_error xs k = Some x).
  { revert k Hk. generalize (py_range (Z.of_nat (length xs))) as zs.
    induction xs as [|a xs IH]; intros [|z0 zs] [|k] Hk; cbn in Hk; try discriminate.
    - injection Hk as -> ->. auto.
    - cbn. now apply IH. }
  destruct Hz as [Hz Hx]. apply py_range_nth_inv in Hz as [-> _].
  now rewrite Nat2Z.id.
Qed.

Section Encodes.
Context {pil : PIL}.

Lemma pack_layer_encoded s t z base ies blobs st' :
  0 < t < 2 ^ 32 ->
  pack_layer s t (ies, blobs) (z, base) = inr st' ->
  exists E B, st' = (ies ++ E, blobs ++ B) /\
    Forall2 (fun e b =>
               e_lod e = s /\ e_z e = z /\
               encode_png_bytes (crop base (tile_box (tile_of base t (e_tx e) (e_ty e))))
                 = (b, e_w e, e_h e)) E B.
Proof.
  intros Ht. unfold pack_layer. rewrite iter_tiles_grid_u32 by assumption.
  rewrite fold_left_pack_tile. intros [= <-].
  do 2 eexists. split; [reflexivity|].
  match goal with |- Forall2 _ (map _ ?l) _ => set (tiles := l) end.
  assert (Htiles : Forall (fun tl => tl = tile_of base t (fst (fst tl)) (snd (fst tl))) tiles).
  { apply Forall_forall. intros tl Hin. apply grid_In in Hin as (ty & tx & _ & _ & ->).
    reflexivity. }
  clearbody tiles. induction Htiles as [|tl tiles Htl _ IH]; cbn [map]; constructor.
  - cbn [tile_entry e_lod e_z e_tx e_ty e_w e_h]. rewrite <- Htl.
    repeat split.
  - exact IH.
Qed.

Lemma fold_pack_layer_encoded_inv s t layers zbs : 0 < t < 2 ^ 32 ->
  Forall (fun zb => nth_error layers (Z.to_nat (fst zb)) = Some (snd zb)) zbs ->
  forall ies blobs st',
  fold_result (pack_layer s t) zbs (ies, blobs) = inr st' ->
  exists E B, st' = (ies ++ E, blobs ++ B) /\
    Forall2 (fun e b =>
               exists base, nth_error layers (Z.to_nat (e_z e)) = Some base /\
                 e_lod e = s /\
                 encode_png_bytes (crop base (tile_box (tile_of base t (e_tx e) (e_ty e))))
                   = (b, e_w e, e_h e)) E B.
Proof.
  intros Ht. induction 1 as [|[z base] zbs Hz _ IH]; intros ies blobs st' Hrun.
  - injection Hrun as <-. exists [], []. rewrite !app_nil_r. split; [reflexivity|constructor].
  - cbn [fold_result] in Hrun. cbn [fst snd] in Hz.
    destruct (pack_layer s t (ies, blobs) (z, base)) as [e|st1] eqn:H1; [discriminate|].
    apply pack_layer_encoded in H1 as (E1 & B1 & -> & Henc1); [|assumption].
    apply IH in Hrun as (E2 & B2 & -> & Henc2).
    exists (E1 ++ E2), (B1 ++ B2). rewrite !app_assoc. split; [reflexivity|].
    apply Forall2_app; [|assumption].
    eapply Forall2_impl; [|exact Henc1]. cbv beta.
    intros e b (Hl & Hez & Hen). exists base. rewrite Hez. auto.
Qed.

Lemma downsample_layers_rel imgs s zs :
  forall acc layers,
  fold_result (downsample_layer imgs s) zs acc = inr layers ->
  exists new, layers = acc ++ new /\
    Forall2 (fun z base =>
               exists img, nth_error imgs (Z.to_nat z) = Some img /\
                 (if s =? 1 then base = img else build_downsampled img s = inr base))
            zs new.
Proof.
  induction zs as [|z zs IH]; intros acc layers Hrun.
  - injection Hrun as <-. exists []. rewrite app_nil_r. split; [reflexivity|constructor].
  - cbn [fold_result] in Hrun.
    destruct (downsample_layer imgs s acc z) as [e|acc'] eqn:Hz; [discriminate|].
    unfold downsample_layer in Hz.
    destruct (nth_error imgs (Z.to_nat z)) as [img|] eqn:Hnth; [|discriminate].
    assert (Hstep : exists base, acc' = acc ++ [base] /\
              (if s =? 1 then base = img else build_downsampled img s = inr base)).
    { destruct (s =? 1).
      - injection Hz as <-. eauto.
      - destruct (build_downsampled img s) as [e|base]; [discriminate|].
        injection Hz as <-. eauto. }
    destruct Hstep as (base & -> & Hbase).
    apply IH in Hrun as (new & -> & Hnew).
    exists (base :: new). rewrite <- app_assoc.
    split; [reflexivity|]. constructor; [|assumption]. eauto.
Qed.

Lemma pack_lod_encoded imgs t s ies blobs st' : 0 < t < 2 ^ 32 ->
  pack_lod imgs t (ies, blobs) s = inr st' ->
  exists E B, st' = (ies ++ E, blobs ++ B) /\
    Forall2 (fun e b => tile_encoded imgs t (e_shape e) b) E B.
Proof.
  intros Ht. unfold pack_lod.
  destruct (fold_result (downsample_layer imgs s) (py_range NUM_LAYERS) [])
    as [e|layers] eqn:Hd; [discriminate|].
  apply downsample_layers_rel in Hd as (new & -> & Hrel). cbn [app] in *.
  intros Hrun.
  apply (fold_pack_layer_encoded_inv s t new) in Hrun as (E & B & -> & Henc);
    [|assumption|apply enumerate_nth].
  exists E, B. split; [reflexivity|].
  eapply Forall2_impl; [|exact Henc]. cbv beta.
  intros e b (base & Hbase & Hl & Hen). unfold tile_encoded, e_shape.
  assert (Hk : (Z.to_nat (e_z e) < length new)%nat) by (apply nth_error_Some; congruence).
  rewrite <- (Forall2_length Hrel), py_range_length in Hk.
  pose proof (py_range_nth NUM_LAYERS _ Hk) as Hz.
  destruct (Forall2_nth _ _ _ _ _ _ Hrel Hz Hbase) as (img & Himg & Hlod).
  rewrite Nat2Z.id in Himg.
  exists img, base. rewrite Hl. auto.
Qed.

Lemma fold_pack_lod_encoded imgs t lods : 0 < t < 2 ^ 32 ->
  forall ies blobs st',
  fold_result (pack_lod imgs t) lods (ies, blobs) = inr st' ->
  exists E B, st' = (ies ++ E, blobs ++ B) /\
    Forall2 (fun e b => tile_encoded imgs t (e_shape e) b) E B.
Proof.
  intros Ht. induction lods as [|s lods IH]; intros ies blobs st' Hrun.
  - injection Hrun as <-. exists [], []. rewrite !app_nil_r. split; [reflexivity|constructor].
  - cbn [fold_result] in Hrun.
    destruct (pack_lod imgs t (ies, blobs) s) as [e|st1] eqn:H1; [discriminate|].
    apply pack_lod_encoded in H1 as (E1 & B1 & -> & Henc1); [|assumption].
    apply IH in Hrun as (E2 & B2 & -> & Henc2).
    exists (E1 ++ E2), (B1 ++ B2). rewrite !app_assoc. split; [reflexivity|].
    now apply Forall2_app.
Qed.

Lemma load_layers_sources paths :
  forall acc size imgs size',
  fold_result load_layer paths (acc, size) = inr (imgs, size') ->
  exists new, imgs = acc ++ new /\
    Forall2 (fun p img => exists i0, Image_open p = inr i0 /\ img = to_rgba i0) paths new.
Proof.
  induction paths as [|p paths IH]; intros acc size imgs size' Hrun.
  - injection Hrun as <- _. exists []. rewrite app_nil_r. split; [reflexivity|constructor].
  - cbn [fold_result] in Hrun.
    destruct (load_layer (acc, size) p) as [e|[acc1 size1]] eqn:H1; [discriminate|].
    apply IH in Hrun as (new & -> & Hnew). unfold load_layer in H1.
    destruct (Image_open p) as [e|i0] eqn:Hopen; [discriminate|].
    assert (Hacc1 : acc1 = acc ++ [to_rgba i0]).
    { destruct size as [[w h]|].
      - destruct (negb (width (to_rgba i0) =? w) || negb (height (to_rgba i0) =? h));
          [discriminate|]. now injection H1 as <- _.
      - now injection H1 as <- _. }
    subst acc1. exists (to_rgba i0 :: new). rewrite <- app_assoc.
    split; [reflexivity|]. constructor; eauto.
Qed.

Lemma pack_atlas_3d_inv_acc paths t lods s out :
  pack_atlas_3d paths t lods = (inr s, out) ->
  exists imgs E,
    load_layers paths = inr (imgs, Some (s_width s, s_height s)) /\
    fold_result (pack_lod imgs t) lods ([], []) = inr (E, s_tile_data_blobs s) /\
    map e_shape (s_index_entries s) = map e_shape E /\ 0 < t < 2 ^ 32.
Proof.
  unfold pack_atlas_3d.
  destruct (Z.eqb_spec (Z.of_nat (length paths)) NUM_LAYERS) as [Hlen|]; [|discriminate].
  cbn [negb].
  destruct (load_layers paths) as [e|[imgs size]] eqn:Hload; [discriminate|].
  pose proof Hload as Hinv.
  apply load_layers_fold_inv in Hinv as (Hsz & Hnone & Himgs); [|discriminate|reflexivity].
  destruct size as [[W H]|];
    [|destruct (Hnone eq_refl) as [-> _]; discriminate].
  specialize (Hsz W H eq_refl).
  destruct (pack_body imgs (Some (W, H)) t lods empty_file) as [r f] eqn:Hbody.
  intros [= -> <-].
  apply pack_body_inv in Hbody
    as (ies & blobs & Hacc & Hres & Hblobs & HW & HH & Ht & _).
  pose proof Hacc as Hacc'.
  apply (fold_pack_lod_inv W H) in Hacc' as (E & B & [= -> ->] & Hpar & _);
    [|lia|assumption].
  cbn [app] in *.
  apply resolve_offsets_inv in Hres as (_ & Hs & _); [|exact Hpar].
  exists imgs, E. rewrite HW, HH, Hblobs. repeat split; try assumption; lia.
Qed.


End Encodes.

(** ** Offsets, tile sizes and mismatched layers *)

Lemma contiguous_prefix_sum es :
  forall c k e, contiguous_from c es -> nth_error es k = Some e ->
  e_rel_off e = Some (c + total_length (firstn k es)).
Proof.
  induction es as [|e0 es IH]; intros c k e Hc Hk; [now destruct k|].
  destruct Hc as [H0 Hc]. destruct k as [|k].
  - injection Hk as <-. cbn [firstn]. change (total_length []) with 0.
    now rewrite Z.add_0_r.
  - cbn [nth_error] in Hk. rewrite (IH _ _ _ Hc Hk). cbn [firstn].
    change (total_length (e0 :: firstn k es))
      with (e_length e0 + total_length (firstn k es)).
    f_equal. lia.
Qed.

Section TileClaims.
Context {pil : PIL}.

(** C1: when the packer returns, the four sources decode to one size
    [W x H]; the index entries are exactly the production order over it
    (LODs in the supplied order, then layers 0 to 3, then tiles row by
    row), the index table of the file stores them in that order, and the
    data section is their payloads, each as long as its [byte_length]; the
    [k]-th entry's [rel_offset] is the sum of the [byte_length]s before it,
    so it is 0 for the first entry, each next [rel_offset] is the previous
    one plus the previous [byte_length], and the last entry's
    [rel_offset + byte_length] is [file_size - data_offset]. *)
Theorem pack_offsets_contiguous paths tile_px lods s file :
  pack_atlas_3d paths tile_px lods = (inr s, file) ->
  exists bytes, file = Some bytes /\
    let es := s_index_entries s in
    let order := production_order (s_width s) (s_height s) tile_px lods in
    length paths = 4%nat /\
    Forall (fun p => exists img, Image_open p = inr img /\
                                 width img = s_width s /\ height img = s_height s)
           paths /\
    map e_shape es = order /\
    slice bytes (Z.to_nat (s_index_offset s)) (36 * length es)
      = concat (map entry_layout es) /\
    skipn (Z.to_nat (s_data_offset s)) bytes = concat (s_tile_data_blobs s) /\
    Forall2 (fun e b => e_length e = Z.of_nat (length b)) es (s_tile_data_blobs s) /\
    (forall k, (k < length order)%nat ->
       exists e, nth_error es k = Some e /\
                 e_rel_off e = Some (total_length (firstn k es))) /\
    (forall e, nth_error es 0 = Some e -> e_rel_off e = Some 0) /\
    (forall k e e', nth_error es k = Some e -> nth_error es (S k) = Some e' ->
       exists r, e_rel_off e = Some r /\ e_rel_off e' = Some (r + e_length e)) /\
    (forall e, nth_error es (Nat.pred (length es)) = Some e ->
       exists r, e_rel_off e = Some r /\
                 r + e_length e = Z.of_nat (length bytes) - s_data_offset s) /\
    total_length es = Z.of_nat (length bytes) - s_data_offset s.
Proof.
  intros Hrun. apply pack_atlas_3d_inv_full in Hrun
    as (bytes & -> & Hp & Hlen & _ & _ & Hpar & _).
  exists bytes. split; [reflexivity|].
  destruct (packed_index_slice _ _ _ _ _ Hp) as (Hidx & Hdata & Hsize).
  destruct Hp as ((imgs & Hload) & _ & _ & _ & _ & _ & Hshape & Hcont & Htot & _).
  cbv zeta. split; [assumption|].
  split; [exact (load_layers_opened _ _ _ _ _ _ Hload)|].
  split; [assumption|]. split; [assumption|]. split; [assumption|].
  split; [assumption|].
  refine (conj _ (conj _ (conj _ (conj _ _)))).
  - intros k Hk. rewrite <- Hshape, length_map in Hk.
    destruct (nth_error (s_index_entries s) k) as [e|] eqn:He;
      [|apply nth_error_None in He; lia].
    exists e. split; [reflexivity|].
    now rewrite (contiguous_prefix_sum _ _ _ _ Hcont He).
  - intros e. exact (contiguous_first _ _ e Hcont).
  - intros k e e'. exact (contiguous_step _ _ k e e' Hcont).
  - intros e He. destruct (contiguous_last _ _ _ Hcont He) as (r & Hr & Hsum).
    exists r. split; [assumption|]. lia.
  - lia.
Qed.

(** The raster an entry was cut from. *)
Lemma entry_raster paths tile_px lods s out :
  pack_atlas_3d paths tile_px lods = (inr s, out) ->
  forall k e blob,
    nth_error (s_index_entries s) k = Some e ->
    nth_error (s_tile_data_blobs s) k = Some blob ->
    exists p i0 base,
      nth_error paths (Z.to_nat (e_z e)) = Some p /\
      Image_open p = inr i0 /\
      (if e_lod e =? 1 then base = to_rgba i0
       else build_downsampled (to_rgba i0) (e_lod e) = inr base) /\
      width base = fst (lod_size (s_width s) (s_height s) (e_lod e)) /\
      height base = snd (lod_size (s_width s) (s_height s) (e_lod e)) /\
      encode_png_bytes
        (crop base (e_tx e * tile_px, e_ty e * tile_px,
                    Z.min (e_tx e * tile_px + tile_px) (width base),
                    Z.min (e_ty e * tile_px + tile_px) (height base)))
        = (blob, e_w e, e_h e).
Proof.
  intros Hrun k e blob He Hb.
  apply pack_atlas_3d_inv_acc in Hrun as (imgs & E & Hload & Hacc & Hshape & Ht).
  apply fold_pack_lod_encoded in Hacc as (E' & B' & [= HE HB] & Henc); [|assumption].
  cbn [app] in HE, HB. subst E' B'.
  pose proof (Forall2_shapes _ _ _ _ Henc Hshape) as Henc'.
  pose proof (Forall2_nth _ _ _ _ _ _ Henc' He Hb) as Hk. cbv beta in Hk.
  unfold tile_encoded, e_shape in Hk. destruct Hk as (img & base & Himg & Hlod & Hen).
  pose proof (load_layers_opened _ _ _ _ _ _ Hload) as Hopened.
  apply load_layers_sources in Hload as (new & -> & Hsrc). cbn [app] in *.
  assert (Hp : exists p, nth_error paths (Z.to_nat (e_z e)) = Some p).
  { destruct (nth_error paths (Z.to_nat (e_z e))) as [p|] eqn:Hp; [eauto|].
    apply nth_error_None in Hp. rewrite (Forall2_length Hsrc) in Hp.
    apply nth_error_None in Hp. congruence. }
  destruct Hp as [p Hp].
  destruct (Forall2_nth _ _ _ _ _ _ Hsrc Hp Himg) as (i0 & Hopen & ->).
  assert (Hsz : sized (s_width s) (s_height s) (to_rgba i0)).
  { apply to_rgba_sized.
    pose proof (proj1 (Forall_forall _ _) Hopened p (nth_error_In _ _ Hp))
      as (i1 & Hopen1 & HW & HH).
    cbv beta in Hopen1. rewrite Hopen in Hopen1. injection Hopen1 as <-.
    split; assumption. }
  exists p, i0, base. split; [assumption|]. split; [assumption|].
  split; [assumption|].
  assert (Hdim : sized (fst (lod_size (s_width s) (s_height s) (e_lod e)))
                       (snd (lod_size (s_width s) (s_height s) (e_lod e))) base).
  { unfold lod_size. destruct (Z.eqb_spec (e_lod e) 1) as [H1|H1].
    - subst base. exact Hsz.
    - exact (build_downsampled_sized _ _ _ _ _ Hsz H1 Hlod). }
  destruct Hdim as [Hdw Hdh]. split; [exact Hdw|]. split; [exact Hdh|]. exact Hen.
Qed.

(** C4: when the packer returns, the four sources decode to one size
    [W x H]; [build_downsampled] returns the raster itself for factor 1 and
    a raster of [floor(W/s) x floor(H/s)] for a factor above 1; the raster
    cut for an index entry of LOD [s] is layer [z] itself for [s = 1] and
    its downsampled copy otherwise, of that size; every tile of every
    supplied LOD is recorded (the index is the production order); and every
    entry belongs to a supplied LOD and its [pixel_w] ([pixel_h]) is
    [tile_px], except in the last column (row) of its LOD raster when the
    raster side is not a multiple of [tile_px], where it is the
    remainder. *)
Theorem pack_tile_dimensions paths tile_px lods s file :
  pack_atlas_3d paths tile_px lods = (inr s, file) ->
  let W := s_width s in
  let H := s_height s in
  let es := s_index_entries s in
  length paths = 4%nat /\
  Forall (fun p => exists img, Image_open p = inr img /\
                               width img = W /\ height img = H) paths /\
  (forall img v base, build_downsampled img v = inr base ->
     (v = 1 -> base = img) /\
     (1 < v -> width base = width img / v /\ height base = height img / v)) /\
  length (s_tile_data_blobs s) = length es /\
  (forall k e blob,
     nth_error es k = Some e -> nth_error (s_tile_data_blobs s) k = Some blob ->
     exists p i0 base,
       nth_error paths (Z.to_nat (e_z e)) = Some p /\
       Image_open p = inr i0 /\
       (if e_lod e =? 1 then base = to_rgba i0
        else build_downsampled (to_rgba i0) (e_lod e) = inr base) /\
       width base = fst (lod_size W H (e_lod e)) /\
       height base = snd (lod_size W H (e_lod e)) /\
       encode_png_bytes
         (crop base (e_tx e * tile_px, e_ty e * tile_px,
                     Z.min (e_tx e * tile_px + tile_px) (width base),
                     Z.min (e_ty e * tile_px + tile_px) (height base)))
         = (blob, e_w e, e_h e)) /\
  map e_shape es = production_order W H tile_px lods /\
  (forall v z tx ty,
     In v lods -> 0 <= z < NUM_LAYERS ->
     0 <= tx < py_ceil_div (fst (lod_size W H v)) tile_px ->
     0 <= ty < py_ceil_div (snd (lod_size W H v)) tile_px ->
     exists e, In e es /\ e_key e = (v, z, tx, ty)) /\
  (forall e, In e es ->
     In (e_lod e) lods /\
     let Ws := fst (lod_size W H (e_lod e)) in
     let Hs := snd (lod_size W H (e_lod e)) in
     e_w e = (if (e_tx e =? py_ceil_div Ws tile_px - 1) && negb (Ws mod tile_px =? 0)
              then Ws mod tile_px else tile_px) /\
     e_h e = (if (e_ty e =? py_ceil_div Hs tile_px - 1) && negb (Hs mod tile_px =? 0)
              then Hs mod tile_px else tile_px)).
Proof.
  intros Hrun. pose proof (entry_raster _ _ _ _ _ Hrun) as Hraster.
  apply pack_atlas_3d_inv_full in Hrun
    as (bytes & -> & Hp & Hlen & _ & _ & Hpar & _).
  destruct Hp as ((imgs & Hload) & Ht & _ & _ & _ & _ & Hshape & _).
  cbv zeta. split; [assumption|].
  split; [exact (load_layers_opened _ _ _ _ _ _ Hload)|].
  split; [|split; [symmetry; exact (Forall2_length Hpar)|
           split; [exact Hraster|split; [exact Hshape|split]]]].
  - intros img v base Hb. split.
    + intros ->. unfold build_downsampled in Hb. simpl in Hb. congruence.
    + intros Hv.
      destruct (build_downsampled_sized (width img) (height img) img v base) as [HW HH];
        [split; reflexivity|lia|assumption|]. auto.
  - intros v z tx ty Hv Hz Hx Hy.
    assert (Hin : In (tile_shape tile_px v z (fst (lod_size (s_width s) (s_height s) v))
                        (snd (lod_size (s_width s) (s_height s) v)) ty tx)
                     (production_order (s_width s) (s_height s) tile_px lods)).
    { apply production_order_In. exists v, z, tx, ty. auto. }
    rewrite <- Hshape in Hin. apply in_map_iff in Hin as (e & He & Hin).
    exists e. split; [assumption|].
    unfold e_shape, tile_shape in He. unfold e_key. congruence.
  - intros e He.
    assert (Hin : In (e_shape e) (production_order (s_width s) (s_height s) tile_px lods)).
    { rewrite <- Hshape. now apply in_map. }
    apply production_order_In in Hin as (v & z & tx & ty & Hv & Hz & Hx & Hy & Heq).
    unfold e_shape, tile_shape in Heq. injection Heq as Hl _ Htx Hty Hw Hh.
    rewrite Hl, Htx, Hty, Hw, Hh. split; [assumption|].
    split; apply tile_side_cases; lia.
Qed.

(** C8: when a layer source decodes to a size other than that of the
    layers before it (which is the first layer's), the packer raises the
    layer-size [ValueError], naming the first layer's size, that source and
    its size, and the output file is never opened; the sources after it are
    not even read. *)
Theorem pack_layer_size_mismatch paths1 imgs1 p img paths2 W H tile_px lods :
  length (paths1 ++ p :: paths2) = 4%nat ->
  paths1 <> [] ->
  Forall2 (fun q i => Image_open q = inr i /\ sized W H i) paths1 imgs1 ->
  Image_open p = inr img ->
  width img <> W \/ height img <> H ->
  pack_atlas_3d (paths1 ++ p :: paths2) tile_px lods
    = (inl (ValueError_layer_size W H p (width img) (height img)), None).
Proof.
  intros Hlen Hne Hall Hopen Hbad. unfold pack_atlas_3d.
  rewrite Hlen. cbn [Z.of_nat negb Z.eqb NUM_LAYERS Pos.of_succ_nat Pos.succ Pos.eqb].
  unfold load_layers. rewrite fold_result_app.
  destruct Hall as [|q i paths1 imgs1 [Hq Hs] Hrest]; [contradiction|].
  cbn [fold_result]. rewrite (load_layer_first _ _ Hq).
  destruct (to_rgba_sized _ _ _ Hs) as [-> ->].
  rewrite (load_layers_next_ok _ _ _ _ Hrest). cbn [fold_result].
  rewrite (load_layer_next _ _ _ _ _ Hopen).
  destruct (to_rgba_size img) as [-> ->].
  destruct (Z.eqb_spec (width img) W) as [HW|HW];
    destruct (Z.eqb_spec (height img) H) as [HH|HH]; cbn [negb orb];
    try reflexivity.
  destruct Hbad; contradiction.
Qed.

End TileClaims.
Lemma pack_offsets_contiguous_witness :
  exists s out,
    pack_atlas_3d (pil := solid_pil) world_planes 256 [1; 2] = (inr s, out) /\
    exists bytes e,
      out = Some bytes /\
      length (s_index_entries s) = 20%nat /\
      nth_error (s_index_entries s) 19 = Some e /\
      e_rel_off e = Some 247 /\
      247 + e_length e = Z.of_nat (length bytes) - s_data_offset s.
Proof.
  run_planes s out E. exists s, out. split; [reflexivity|].
  destruct (pack_offsets_contiguous (pil := solid_pil) _ _ _ _ _ E)
    as (bytes & Hb & _ & _ & Hshape & _ & _ & _ & Hsum & _ & _ & Hlast & _).
  pose proof E as E'. vm_compute in E'. injection E' as Hs _.
  destruct (Hsum 19%nat) as (e & He & Hoff).
  { rewrite <- Hs. apply Nat.ltb_lt. vm_compute. reflexivity. }
  exists bytes, e. split; [exact Hb|].
  assert (Hn : length (s_index_entries s) = 20%nat).
  { rewrite <- (length_map e_shape), Hshape, <- Hs. vm_compute. reflexivity. }
  split; [exact Hn|]. split; [exact He|].
  assert (H247 : e_rel_off e = Some 247).
  { rewrite Hoff, <- Hs. vm_compute. reflexivity. }
  split; [exact H247|].
  rewrite Hn in Hlast. destruct (Hlast e He) as (r & Hr & Hend).
  rewrite H247 in Hr. injection Hr as <-. exact Hend.
Defined.

Lemma pack_tile_dimensions_witness :
  exists s out,
    pack_atlas_3d (pil := solid_pil) world_planes 256 [1; 2] = (inr s, out) /\
    (exists e, In e (s_index_entries s) /\ e_key e = (1, 0, 1, 1) /\
               e_w e = 44 /\ e_h e = 44) /\
    (exists e, In e (s_index_entries s) /\ e_key e = (2, 3, 0, 0) /\
               e_w e = 150 /\ e_h e = 150).
Proof.
  run_planes s out E. exists s, out. split; [reflexivity|].
  destruct (pack_tile_dimensions (pil := solid_pil) _ _ _ _ _ E)
    as (_ & _ & _ & _ & _ & _ & Hall & Hdim).
  pose proof E as E'. vm_compute in E'. injection E' as Hs _.
  assert (HW : s_width s = 300) by (rewrite <- Hs; reflexivity).
  assert (HH : s_height s = 300) by (rewrite <- Hs; reflexivity).
  rewrite HW, HH in Hall, Hdim. split.
  - destruct (Hall 1 0 1 1) as (e & Hin & Hkey);
      [now left|unfold NUM_LAYERS; lia|vm_compute; split; congruence
      |vm_compute; split; congruence|].
    exists e. split; [exact Hin|]. split; [exact Hkey|].
    destruct (Hdim e Hin) as (_ & Hw & Hh).
    unfold e_key in Hkey. injection Hkey as Hl _ Htx Hty.
    rewrite Hl, Htx in Hw. rewrite Hl, Hty in Hh. split; [exact Hw|exact Hh].
  - destruct (Hall 2 3 0 0) as (e & Hin & Hkey);
      [now right; left|unfold NUM_LAYERS; lia|vm_compute; split; congruence
      |vm_compute; split; congruence|].
    exists e. split; [exact Hin|]. split; [exact Hkey|].
    destruct (Hdim e Hin) as (_ & Hw & Hh).
    unfold e_key in Hkey. injection Hkey as Hl _ Htx Hty.
    rewrite Hl, Htx in Hw. rewrite Hl, Hty in Hh. split; [exact Hw|exact Hh].
Defined.

Lemma pack_layer_size_mismatch_witness :
  pack_atlas_3d (pil := solid_pil) odd_planes 256 [1; 2]
    = (inl (ValueError_layer_size 300 300 "world_plane_half.png" 150 300), None).
Proof.
  apply (pack_layer_size_mismatch (pil := solid_pil)
           ["world_plane0.png"; "world_plane1.png"]%string
           [mk_raster 300 300 "RGBA" 0; mk_raster 300 300 "RGB" 1]
           "world_plane_half.png"%string (mk_raster 150 300 "RGBA" 4)
           ["world_plane3.png"%string] 300 300 256 [1; 2]).
  - reflexivity.
  - discriminate.
  - repeat constructor.
  - reflexivity.
  - left. vm_compute. discriminate.
Defined.
